(** * Encoders of package [board]: a verification development

    Shallow embedding of [board/encoder.go]: the quadrature [HallEncoder], the
    single-interrupt [SingleEncoder], their atomic position counter and the
    consumer loops started by [Start].

    - the [int64] counter is a [Z] with the two's-complement wrap-around of
      [atomic.AddInt64] written out ([Int64.wrap]);
    - a Go [error] result is an [option error], [None] standing for [nil];
    - a consumer loop is a small machine with a program point ([AtTop],
      [AtRecv], [Exited]); one transition is one [select] of the source, and
      the other goroutines (interrupt senders, the canceller, callers of
      [Zero]) are transitions of the environment. *)

From Stdlib Require Import ZArith List Bool String Lia.
Import ListNotations.
Open Scope Z_scope.

(** ** Go's [int64] and [sync/atomic] *)

Module Int64.

Definition half : Z := 2 ^ 63.
Definition modulus : Z := 2 ^ 64.
Definition min_int : Z := - half.
Definition max_int : Z := half - 1.

Definition in_range (z : Z) : Prop := min_int <= z <= max_int.

(** The value an [int64] holds after a computation whose mathematical
    result is [z]. *)
Definition wrap (z : Z) : Z := (z + half) mod modulus - half.

Definition add (x y : Z) : Z := wrap (x + y).
Definition sub (x y : Z) : Z := wrap (x - y).

End Int64.

(** [atomic.LoadInt64], [atomic.StoreInt64] and [atomic.AddInt64] on the cell
    holding [cell]; each is one indivisible transition, so the model gives the
    cell's next content. *)
Definition LoadInt64 (cell : Z) : Z := cell.
Definition StoreInt64 (cell : Z) (val : Z) : Z := val.
Definition AddInt64 (cell : Z) (delta : Z) : Z := Int64.add cell delta.

(** The change of the counter between two reads, as Go computes
    [after - before] on [int64]. *)
Definition delta64 (before after : Z) : Z := Int64.sub after before.

(** Go's [error]; [None] is [nil]. *)
Definition error : Type := string.

(** [context.Context], as far as this file looks at it: whether [Done()] is
    closed. *)
Record Context : Type := mkContext { Done : bool }.

(** A channel of the loop is known by its name. *)
Definition Chan : Type := string.

(** Modelled from the spec: the interface [DigitalInterrupt] (the EdgeSource),
    whose declaration is not in this file of the package.  The encoders only
    need [AddCallback], which registers a delivery channel. *)
Record DigitalInterrupt : Type := mkDigitalInterrupt { callbacks : list Chan }.

Definition AddCallback (i : DigitalInterrupt) (c : Chan) : DigitalInterrupt :=
  mkDigitalInterrupt (callbacks i ++ [c]).

(** Program points of a consumer loop: before the non-blocking [select] at
    the top of the [for], at the blocking [select], after [return], and after
    a panic left the function (what [utils.ManagedGo] does with a panic is
    outside this file). *)
Inductive PC : Type := AtTop | AtRecv | Exited | Panicked.

(** ** HallEncoder *)

Module Hall.

Record HallEncoder : Type := mkHallEncoder {
  a : DigitalInterrupt;
  b : DigitalInterrupt;
  position : Z
}.

Definition set_position (e : HallEncoder) (p : Z) : HallEncoder :=
  mkHallEncoder (a e) (b e) p.

Definition NewHallEncoder (a b : DigitalInterrupt) : HallEncoder :=
  mkHallEncoder a b 0.

Definition Position (e : HallEncoder) (ctx : Context) : Z * option error :=
  (LoadInt64 (position e), None).

Definition Zero (e : HallEncoder) (ctx : Context) (offset : Z)
  : HallEncoder * option error :=
  (set_position e (StoreInt64 (position e) offset), None).

Definition RawPosition (e : HallEncoder) : Z := LoadInt64 (position e).

Definition inc (e : HallEncoder) : HallEncoder :=
  set_position e (AddInt64 (position e) 1).

Definition dec (e : HallEncoder) : HallEncoder :=
  set_position e (AddInt64 (position e) (-1)).

(** The variables local to the goroutine of [Start]. *)
Record Locals : Type := mkLocals {
  aLevel : bool;
  bLevel : bool;
  lastWasA : bool;
  lastLevel : bool
}.

(** Their values when the loop is entered. *)
Definition init_locals : Locals := mkLocals true true true true.

(** What the blocking [select] received: a level from [chanA] or from
    [chanB]. *)
Inductive Recv : Type :=
| FromA (level : bool)
| FromB (level : bool).

Definition isA_of (r : Recv) : bool :=
  match r with FromA _ => true | FromB _ => false end.

Definition level_of (r : Recv) : bool :=
  match r with FromA level => level | FromB level => level end.

(** The two receiving cases of the [select]: the cached level of the
    channel that fired is overwritten. *)
Definition record (r : Recv) (l : Locals) : Locals :=
  match r with
  | FromA level => mkLocals level (bLevel l) (lastWasA l) (lastLevel l)
  | FromB level => mkLocals (aLevel l) level (lastWasA l) (lastLevel l)
  end.

(** The test guarding [continue]. *)
Definition duplicate (r : Recv) (l : Locals) : bool :=
  Bool.eqb (isA_of r) (lastWasA l) && Bool.eqb (level_of r) (lastLevel l).

Definition accepted (r : Recv) (l : Locals) : bool := negb (duplicate r l).

(** The chain of four [if]s on the cached levels. *)
Definition count (l : Locals) (e : HallEncoder) : HallEncoder :=
  if negb (aLevel l) && negb (bLevel l) then
    if lastWasA l then inc e else dec e
  else if negb (aLevel l) && bLevel l then
    if lastWasA l then dec e else inc e
  else if aLevel l && bLevel l then
    if lastWasA l then inc e else dec e
  else if aLevel l && negb (bLevel l) then
    if lastWasA l then dec e else inc e
  else e.

(** The rest of one iteration once the [select] has received [r]. *)
Definition iteration (r : Recv) (st : Locals * HallEncoder)
  : Locals * HallEncoder :=
  let (l, e) := st in
  let l1 := record r l in
  if duplicate r l1 then (l1, e)
  else
    let l2 := mkLocals (aLevel l1) (bLevel l1) (isA_of r) (level_of r) in
    (l2, count l2 e).

(** Events received one after the other by a loop that is not cancelled. *)
Definition run (rs : list Recv) (st : Locals * HallEncoder)
  : Locals * HallEncoder :=
  fold_left (fun st r => iteration r st) rs st.

(** *** The goroutine and its environment *)

Record Sys : Type := mkSys {
  enc : HallEncoder;
  loc : Locals;
  pc : PC;
  cancelled : bool;     (* [cancelCtx.Done()] is closed *)
  chanA : list bool;    (* senders blocked on [chanA], oldest first *)
  chanB : list bool;    (* senders blocked on [chanB], oldest first *)
  workers : Z           (* counter of [activeBackgroundWorkers] *)
}.

(** [Start]: both channels are registered, the group is incremented and
    the goroutine stands at the top of its loop with fresh locals.  The
    effect of the caller's [onStart] is not part of the model. *)
Definition Start (e : HallEncoder) (cancelCtx : Context)
    (activeBackgroundWorkers : Z) : Sys :=
  mkSys (mkHallEncoder (AddCallback (a e) "chanA"%string)
                       (AddCallback (b e) "chanB"%string)
                       (position e))
        init_locals AtTop (Done cancelCtx) [] []
        (activeBackgroundWorkers + 1).

Inductive Label : Type :=
(* the goroutine *)
| TopDone        (* first [select], case [<-cancelCtx.Done()] *)
| TopDefault     (* first [select], [default] *)
| RecvDone       (* second [select], case [<-cancelCtx.Done()] *)
| RecvA          (* second [select], case [level = <-chanA] *)
| RecvB          (* second [select], case [level = <-chanB] *)
(* the environment *)
| Cancel                                   (* the context is cancelled *)
| SendA (level : bool)                     (* a sender blocks on [chanA] *)
| SendB (level : bool)                     (* a sender blocks on [chanB] *)
| CallZero (ctx : Context) (offset : Z).   (* another goroutine calls [Zero] *)

Definition loop_label (l : Label) : bool :=
  match l with
  | TopDone | TopDefault | RecvDone | RecvA | RecvB => true
  | _ => false
  end.

Definition receive_label (l : Label) : bool :=
  match l with RecvA | RecvB => true | _ => false end.

Definition set_pc (s : Sys) (p : PC) : Sys :=
  mkSys (enc s) (loc s) p (cancelled s) (chanA s) (chanB s) (workers s).

(** The goroutine returns: [ManagedGo] then calls
    [activeBackgroundWorkers.Done]. *)
Definition exit (s : Sys) : Sys :=
  mkSys (enc s) (loc s) Exited (cancelled s) (chanA s) (chanB s)
        (workers s - 1).

(** One transition.  [None]: the label cannot fire in [s].  A [select]
    takes any case that can proceed, so in the second [select] the
    receiving cases stay enabled when [Done()] is closed too; [default] is
    taken only when no case can proceed.  [AtRecv] stands both for a
    goroutine about to execute the second [select] and for one blocked in
    it: the machine allows every choice Go allows, and possibly more. *)
Definition exec (s : Sys) (l : Label) : option Sys :=
  match l with
  | TopDone =>
      match pc s with
      | AtTop => if cancelled s then Some (exit s) else None
      | _ => None
      end
  | TopDefault =>
      match pc s with
      | AtTop => if cancelled s then None else Some (set_pc s AtRecv)
      | _ => None
      end
  | RecvDone =>
      match pc s with
      | AtRecv => if cancelled s then Some (exit s) else None
      | _ => None
      end
  | RecvA =>
      match pc s, chanA s with
      | AtRecv, level :: waiting =>
          let (l', e') := iteration (FromA level) (loc s, enc s) in
          Some (mkSys e' l' AtTop (cancelled s) waiting (chanB s) (workers s))
      | _, _ => None
      end
  | RecvB =>
      match pc s, chanB s with
      | AtRecv, level :: waiting =>
          let (l', e') := iteration (FromB level) (loc s, enc s) in
          Some (mkSys e' l' AtTop (cancelled s) (chanA s) waiting (workers s))
      | _, _ => None
      end
  | Cancel =>
      Some (mkSys (enc s) (loc s) (pc s) true (chanA s) (chanB s) (workers s))
  | SendA level =>
      Some (mkSys (enc s) (loc s) (pc s) (cancelled s)
                  (chanA s ++ [level]) (chanB s) (workers s))
  | SendB level =>
      Some (mkSys (enc s) (loc s) (pc s) (cancelled s)
                  (chanA s) (chanB s ++ [level]) (workers s))
  | CallZero ctx offset =>
      Some (mkSys (fst (Zero (enc s) ctx offset)) (loc s) (pc s)
                  (cancelled s) (chanA s) (chanB s) (workers s))
  end.

Fixpoint exec_trace (s : Sys) (tr : list Label) : option Sys :=
  match tr with
  | [] => Some s
  | l :: tr' =>
      match exec s l with
      | Some s' => exec_trace s' tr'
      | None => None
      end
  end.

(** Does label [l], fired in [s], hand the loop an edge that passes the
    duplicate test? *)
Definition accepts (s : Sys) (l : Label) : bool :=
  match l with
  | RecvA =>
      match pc s, chanA s with
      | AtRecv, level :: _ => accepted (FromA level) (loc s)
      | _, _ => false
      end
  | RecvB =>
      match pc s, chanB s with
      | AtRecv, level :: _ => accepted (FromB level) (loc s)
      | _, _ => false
      end
  | _ => false
  end.

Definition is_zero (l : Label) : bool :=
  match l with CallZero _ _ => true | _ => false end.

(** A trace along which no edge is accepted and [Zero] is not called. *)
Fixpoint quiet (s : Sys) (tr : list Label) : bool :=
  match tr with
  | [] => true
  | l :: tr' =>
      negb (accepts s l) && negb (is_zero l) &&
      match exec s l with
      | Some s' => quiet s' tr'
      | None => true
      end
  end.

(** *** Vocabulary of the specification *)

(** The transition table, row by row as the specification prints it. *)
Inductive Action : Type := Increment | Decrement.

Definition table (aLevel bLevel lastWasA : bool) : Action :=
  match aLevel, bLevel with
  | false, false => if lastWasA then Increment else Decrement
  | false, true => if lastWasA then Decrement else Increment
  | true, true => if lastWasA then Increment else Decrement
  | true, false => if lastWasA then Decrement else Increment
  end.

Definition apply_action (act : Action) (p : Z) : Z :=
  match act with
  | Increment => AddInt64 p 1
  | Decrement => AddInt64 p (-1)
  end.

(** The states the locals can be in: their initial values, and whatever an
    iteration makes of a state already reached (with any encoder, since
    [Zero] may have been called in between). *)
Inductive reachable : Locals -> Prop :=
| reach_init : reachable init_locals
| reach_iteration : forall l e r,
    reachable l -> reachable (fst (iteration r (l, e))).

(** The level kept for the last accepted edge is the cached level of the
    channel it came from. *)
Definition consistent (l : Locals) : bool :=
  Bool.eqb (lastLevel l) (if lastWasA l then aLevel l else bLevel l).

(** A quadrature signal changes one line at a time.  From lines at levels
    [(a, b)], rotation in the direction in which A leads toggles A when the
    lines agree and B when they differ (from (false,false): A up, B up,
    A down, B down); the opposite rotation toggles the other line. *)
Definition forward_edge (a b : bool) : Recv :=
  if Bool.eqb a b then FromA (negb a) else FromB (negb b).

Definition reverse_edge (a b : bool) : Recv :=
  if Bool.eqb a b then FromB (negb b) else FromA (negb a).

Definition levels_after (r : Recv) (a b : bool) : bool * bool :=
  match r with
  | FromA level => (level, b)
  | FromB level => (a, level)
  end.

(** [n] successive edges of a rotation that starts with the lines at
    [(a, b)]. *)
Fixpoint rotation (edge : bool -> bool -> Recv) (n : nat) (a b : bool)
  : list Recv :=
  match n with
  | O => []
  | S n' =>
      let r := edge a b in
      let (a', b') := levels_after r a b in
      r :: rotation edge n' a' b'
  end.

(** [k] full cycles of four edges, starting from the cached levels. *)
Definition forward_cycles (k : nat) (l : Locals) : list Recv :=
  rotation forward_edge (4 * k) (aLevel l) (bLevel l).

Definition reverse_cycles (k : nat) (l : Locals) : list Recv :=
  rotation reverse_edge (4 * k) (aLevel l) (bLevel l).

End Hall.

(** ** SingleEncoder *)

Module Single.

(** Modelled from the spec: the enum [pb.DirectionRelative] of the generated
    protocol package, three-valued (OFF/unknown, FORWARD, BACKWARD). *)
Inductive DirectionRelative : Type :=
| DIRECTION_RELATIVE_UNSPECIFIED
| DIRECTION_RELATIVE_FORWARD
| DIRECTION_RELATIVE_BACKWARD.

Definition DirectionRelative_eqb (x y : DirectionRelative) : bool :=
  match x, y with
  | DIRECTION_RELATIVE_UNSPECIFIED, DIRECTION_RELATIVE_UNSPECIFIED => true
  | DIRECTION_RELATIVE_FORWARD, DIRECTION_RELATIVE_FORWARD => true
  | DIRECTION_RELATIVE_BACKWARD, DIRECTION_RELATIVE_BACKWARD => true
  | _, _ => false
  end.

(** What a logger has been asked to print. *)
Inductive LogEntry : Type := Warn (msg : string).

(** Modelled from the spec: [EncodedMotor], declared elsewhere in the
    package.  The encoder reads its direction ([rawDirection]) and writes
    to its [logger]; the motor's own goroutines change the direction. *)
Record EncodedMotor : Type := mkEncodedMotor {
  direction : DirectionRelative;
  logger : list LogEntry
}.

Definition rawDirection (m : EncodedMotor) : DirectionRelative :=
  direction m.

Definition logger_Warn (m : EncodedMotor) (msg : string) : EncodedMotor :=
  mkEncodedMotor (direction m) (logger m ++ [Warn msg]).

(** [M] is a pointer: [None] is [nil]. *)
Record SingleEncoder : Type := mkSingleEncoder {
  i : DigitalInterrupt;
  position : Z;
  M : option EncodedMotor
}.

Definition NewSingleEncoder (i : DigitalInterrupt) : SingleEncoder :=
  mkSingleEncoder i 0 None.

Definition Position (e : SingleEncoder) (ctx : Context) : Z * option error :=
  (LoadInt64 (position e), None).

Definition Zero (e : SingleEncoder) (ctx : Context) (offset : Z)
  : SingleEncoder * option error :=
  (mkSingleEncoder (i e) (StoreInt64 (position e) offset) (M e), None).

(** The rest of one iteration once a pulse was received (its value is
    dropped).  [None]: [e.M] is [nil], there is no motor to ask and the
    goroutine panics. *)
Definition iteration (rpmDebug : bool) (e : SingleEncoder)
  : option SingleEncoder :=
  match M e with
  | None => None
  | Some m =>
      let dir := rawDirection m in
      if DirectionRelative_eqb dir DIRECTION_RELATIVE_FORWARD then
        Some (mkSingleEncoder (i e) (AddInt64 (position e) 1) (M e))
      else if DirectionRelative_eqb dir DIRECTION_RELATIVE_BACKWARD then
        Some (mkSingleEncoder (i e) (AddInt64 (position e) (-1)) (M e))
      else if rpmDebug then
        Some (mkSingleEncoder (i e) (position e)
                (Some (logger_Warn m
                   "got encoder tick but motor should be off"%string)))
      else Some e
  end.

(** *** The goroutine and its environment *)

Record Sys : Type := mkSys {
  enc : SingleEncoder;
  rpmDebug : bool;              (* second result of [getRPMSleepDebug()] *)
  pc : PC;
  cancelled : bool;             (* [cancelCtx.Done()] is closed *)
  encoderChannel : list bool;   (* senders blocked on it, oldest first *)
  workers : Z                   (* counter of [activeBackgroundWorkers] *)
}.

(** [Start].  [getRPMSleepDebug] is not in this file; the flag it returns
    is an argument of the model. *)
Definition Start (e : SingleEncoder) (cancelCtx : Context)
    (activeBackgroundWorkers : Z) (rpmDebug : bool) : Sys :=
  mkSys (mkSingleEncoder (AddCallback (i e) "encoderChannel"%string)
                         (position e) (M e))
        rpmDebug AtTop (Done cancelCtx) [] (activeBackgroundWorkers + 1).

Inductive Label : Type :=
(* the goroutine *)
| TopDone        (* first [select], case [<-cancelCtx.Done()] *)
| TopDefault     (* first [select], [default] *)
| RecvDone       (* second [select], case [<-cancelCtx.Done()] *)
| RecvPulse      (* second [select], case [<-encoderChannel] *)
(* the environment *)
| Cancel                                   (* the context is cancelled *)
| Send (level : bool)                      (* a sender blocks on the channel *)
| CallZero (ctx : Context) (offset : Z)    (* another goroutine calls [Zero] *)
| SetMotor (m : option EncodedMotor).      (* [e.M] or its direction changes *)

Definition loop_label (l : Label) : bool :=
  match l with
  | TopDone | TopDefault | RecvDone | RecvPulse => true
  | _ => false
  end.

Definition receive_label (l : Label) : bool :=
  match l with RecvPulse => true | _ => false end.

Definition exit (s : Sys) : Sys :=
  mkSys (enc s) (rpmDebug s) Exited (cancelled s) (encoderChannel s)
        (workers s - 1).

Definition exec (s : Sys) (l : Label) : option Sys :=
  match l with
  | TopDone =>
      match pc s with
      | AtTop => if cancelled s then Some (exit s) else None
      | _ => None
      end
  | TopDefault =>
      match pc s with
      | AtTop =>
          if cancelled s then None
          else Some (mkSys (enc s) (rpmDebug s) AtRecv (cancelled s)
                           (encoderChannel s) (workers s))
      | _ => None
      end
  | RecvDone =>
      match pc s with
      | AtRecv => if cancelled s then Some (exit s) else None
      | _ => None
      end
  | RecvPulse =>
      match pc s, encoderChannel s with
      | AtRecv, _ :: waiting =>
          match iteration (rpmDebug s) (enc s) with
          | Some e' =>
              Some (mkSys e' (rpmDebug s) AtTop (cancelled s) waiting
                          (workers s))
          | None =>
              Some (mkSys (enc s) (rpmDebug s) Panicked (cancelled s) waiting
                          (workers s))
          end
      | _, _ => None
      end
  | Cancel =>
      Some (mkSys (enc s) (rpmDebug s) (pc s) true (encoderChannel s)
                  (workers s))
  | Send level =>
      Some (mkSys (enc s) (rpmDebug s) (pc s) (cancelled s)
                  (encoderChannel s ++ [level]) (workers s))
  | CallZero ctx offset =>
      Some (mkSys (fst (Zero (enc s) ctx offset)) (rpmDebug s) (pc s)
                  (cancelled s) (encoderChannel s) (workers s))
  | SetMotor m =>
      Some (mkSys (mkSingleEncoder (i (enc s)) (position (enc s)) m)
                  (rpmDebug s) (pc s) (cancelled s) (encoderChannel s)
                  (workers s))
  end.

Fixpoint exec_trace (s : Sys) (tr : list Label) : option Sys :=
  match tr with
  | [] => Some s
  | l :: tr' =>
      match exec s l with
      | Some s' => exec_trace s' tr'
      | None => None
      end
  end.

Definition is_zero (l : Label) : bool :=
  match l with CallZero _ _ => true | _ => false end.

(** A pulse counts when the motor is set and says forward or backward. *)
Definition counted (e : SingleEncoder) : bool :=
  match M e with
  | Some m =>
      negb (DirectionRelative_eqb (rawDirection m)
                                  DIRECTION_RELATIVE_UNSPECIFIED)
  | None => false
  end.

(** Does label [l], fired in [s], hand the loop a pulse that counts? *)
Definition accepts (s : Sys) (l : Label) : bool :=
  match l with
  | RecvPulse =>
      match pc s, encoderChannel s with
      | AtRecv, _ :: _ => counted (enc s)
      | _, _ => false
      end
  | _ => false
  end.

(** A trace along which no pulse counts and [Zero] is not called. *)
Fixpoint quiet (s : Sys) (tr : list Label) : bool :=
  match tr with
  | [] => true
  | l :: tr' =>
      negb (accepts s l) && negb (is_zero l) &&
      match exec s l with
      | Some s' => quiet s' tr'
      | None => true
      end
  end.

(** The counter change the specification asks for, per direction. *)
Definition dispatch (dir : DirectionRelative) : Z :=
  match dir with
  | DIRECTION_RELATIVE_FORWARD => 1
  | DIRECTION_RELATIVE_BACKWARD => -1
  | DIRECTION_RELATIVE_UNSPECIFIED => 0
  end.

End Single.

(** ** The interface [Encoder]

    Two implementations that share no field: a value of the interface is
    one or the other. *)

Inductive Encoder : Type :=
| HallOf (e : Hall.HallEncoder)
| SingleOf (e : Single.SingleEncoder).

Definition Position (e : Encoder) (ctx : Context) : Z * option error :=
  match e with
  | HallOf h => Hall.Position h ctx
  | SingleOf g => Single.Position g ctx
  end.

Definition Zero (e : Encoder) (ctx : Context) (offset : Z)
  : Encoder * option error :=
  match e with
  | HallOf h => let (h', err) := Hall.Zero h ctx offset in (HallOf h', err)
  | SingleOf g =>
      let (g', err) := Single.Zero g ctx offset in (SingleOf g', err)
  end.

(** A started encoder: its goroutine and what surrounds it. *)
Inductive Loop : Type :=
| HallLoop (s : Hall.Sys)
| SingleLoop (s : Single.Sys).

(** [rpmDebug] only matters to the single-interrupt encoder. *)
Definition Start (e : Encoder) (cancelCtx : Context)
    (activeBackgroundWorkers : Z) (rpmDebug : bool) : Loop :=
  match e with
  | HallOf h => HallLoop (Hall.Start h cancelCtx activeBackgroundWorkers)
  | SingleOf g =>
      SingleLoop (Single.Start g cancelCtx activeBackgroundWorkers rpmDebug)
  end.

Definition encoder (s : Loop) : Encoder :=
  match s with
  | HallLoop h => HallOf (Hall.enc h)
  | SingleLoop g => SingleOf (Single.enc g)
  end.

Definition pc (s : Loop) : PC :=
  match s with
  | HallLoop h => Hall.pc h
  | SingleLoop g => Single.pc g
  end.

Definition cancelled (s : Loop) : bool :=
  match s with
  | HallLoop h => Hall.cancelled h
  | SingleLoop g => Single.cancelled g
  end.

Definition workers (s : Loop) : Z :=
  match s with
  | HallLoop h => Hall.workers h
  | SingleLoop g => Single.workers g
  end.

Inductive Label : Type :=
| HallLabel (l : Hall.Label)
| SingleLabel (l : Single.Label).

Definition exec (s : Loop) (l : Label) : option Loop :=
  match s, l with
  | HallLoop h, HallLabel l => option_map HallLoop (Hall.exec h l)
  | SingleLoop g, SingleLabel l => option_map SingleLoop (Single.exec g l)
  | _, _ => None
  end.

Fixpoint exec_trace (s : Loop) (tr : list Label) : option Loop :=
  match tr with
  | [] => Some s
  | l :: tr' =>
      match exec s l with
      | Some s' => exec_trace s' tr'
      | None => None
      end
  end.

(** A transition of the goroutine, as opposed to one of its environment. *)
Definition loop_label (l : Label) : bool :=
  match l with
  | HallLabel l => Hall.loop_label l
  | SingleLabel l => Single.loop_label l
  end.

(** A transition in which the goroutine takes an event from a channel. *)
Definition receive_label (l : Label) : bool :=
  match l with
  | HallLabel l => Hall.receive_label l
  | SingleLabel l => Single.receive_label l
  end.

Definition is_zero (l : Label) : bool :=
  match l with
  | HallLabel l => Hall.is_zero l
  | SingleLabel l => Single.is_zero l
  end.

(** The transition by which another goroutine calls [Zero]. *)
Definition zero_label (s : Loop) (ctx : Context) (offset : Z) : Label :=
  match s with
  | HallLoop _ => HallLabel (Hall.CallZero ctx offset)
  | SingleLoop _ => SingleLabel (Single.CallZero ctx offset)
  end.

(** The exits of the two [select]s on [cancelCtx.Done()]. *)
Definition top_done (s : Loop) : Label :=
  match s with
  | HallLoop _ => HallLabel Hall.TopDone
  | SingleLoop _ => SingleLabel Single.TopDone
  end.

Definition recv_done (s : Loop) : Label :=
  match s with
  | HallLoop _ => HallLabel Hall.RecvDone
  | SingleLoop _ => SingleLabel Single.RecvDone
  end.

Definition top_default (s : Loop) : Label :=
  match s with
  | HallLoop _ => HallLabel Hall.TopDefault
  | SingleLoop _ => SingleLabel Single.TopDefault
  end.

(** An accepted edge (quadrature) or a pulse that counts (single). *)
Definition accepts (s : Loop) (l : Label) : bool :=
  match s, l with
  | HallLoop h, HallLabel l => Hall.accepts h l
  | SingleLoop g, SingleLabel l => Single.accepts g l
  | _, _ => false
  end.

(** A trace along which nothing is accepted and [Zero] is not called. *)
Fixpoint quiet (s : Loop) (tr : list Label) : bool :=
  match tr with
  | [] => true
  | l :: tr' =>
      negb (accepts s l) && negb (is_zero l) &&
      match exec s l with
      | Some s' => quiet s' tr'
      | None => true
      end
  end.

Definition count_labels (f : Label -> bool) (tr : list Label) : nat :=
  List.length (filter f tr).

(** How many transitions a cancelled goroutine can still take from a program
    point, and how many of them can be receptions. *)
Definition steps_left (p : PC) : nat :=
  match p with
  | AtRecv => 2
  | AtTop => 1
  | Exited | Panicked => 0
  end.

Definition receives_left (p : PC) : nat :=
  match p with
  | AtRecv => 1
  | _ => 0
  end.

(** ** Signals on the two lines *)

Module HallSignal.

Import Hall.

(** The cached level of the channel an event comes from. *)
Definition cached (r : Recv) (l : Locals) : bool :=
  if isA_of r then aLevel l else bLevel l.


(** The same channel reporting the other level. *)
Definition opposite (r : Recv) : Recv :=
  match r with
  | FromA level => FromA (negb level)
  | FromB level => FromB (negb level)
  end.

(** How many events of [rs] pass the duplicate test when the loop receives
    them one after the other. *)
Fixpoint accepted_count (rs : list Recv) (st : Locals * HallEncoder) : nat :=
  match rs with
  | [] => 0
  | r :: rs' =>
      ((if accepted r (fst st) then 1 else 0)
       + accepted_count rs' (iteration r st))%nat
  end.

(** One edge handed to a loop that waits for it: the sender blocks on the
    channel, the loop passes its first [select] and receives. *)
Definition deliver_one (r : Recv) : list Label :=
  match r with
  | FromA level => [SendA level; TopDefault; RecvA]
  | FromB level => [SendB level; TopDefault; RecvB]
  end.

Definition deliver (rs : list Recv) : list Label := flat_map deliver_one rs.

End HallSignal.

(** ** Pulses under a changing direction *)

Module SinglePulses.

Import Single.

(** The motor's own goroutines set its direction. *)
Definition with_direction (d : DirectionRelative) (e : SingleEncoder)
  : SingleEncoder :=
  mkSingleEncoder (i e) (position e)
    (option_map (fun m => mkEncodedMotor d (logger m)) (M e)).

(** One pulse per element of [ds], each received while the motor reads that
    direction.  [None]: an iteration panicked. *)
Fixpoint pulses (rpmDebug : bool) (ds : list DirectionRelative)
    (e : SingleEncoder) : option SingleEncoder :=
  match ds with
  | [] => Some e
  | d :: ds' =>
      match iteration rpmDebug (with_direction d e) with
      | Some e' => pulses rpmDebug ds' e'
      | None => None
      end
  end.

Definition is_off (d : DirectionRelative) : bool :=
  DirectionRelative_eqb d DIRECTION_RELATIVE_UNSPECIFIED.

(** Sum of the counter changes asked for by the directions. *)
Definition net (ds : list DirectionRelative) : Z :=
  fold_right (fun d acc => dispatch d + acc) 0 ds.

End SinglePulses.

(** ** More of the interface *)

(** Senders blocked on the channels of a started encoder. *)
Definition blocked (s : Loop) : nat :=
  match s with
  | HallLoop h => (List.length (Hall.chanA h) + List.length (Hall.chanB h))%nat
  | SingleLoop g => List.length (Single.encoderChannel g)
  end.

Definition send_label (l : Label) : bool :=
  match l with
  | HallLabel (Hall.SendA _) | HallLabel (Hall.SendB _) => true
  | SingleLabel (Single.Send _) => true
  | _ => false
  end.

(** * Properties *)

(** ** Arithmetic of the counter *)

Section Int64Facts.

Import Int64.

Lemma wrap_in_range (z : Z) : in_range (wrap z).
Proof.
  unfold in_range, wrap, min_int, max_int, modulus, half.
  pose proof (Z.mod_pos_bound (z + 2 ^ 63) (2 ^ 64)) as Hb.
  lia.
Qed.

Lemma wrap_small (z : Z) : in_range z -> wrap z = z.
Proof.
  unfold in_range, wrap, min_int, max_int, modulus, half. intros Hz.
  rewrite Z.mod_small; lia.
Qed.

(** Wrapping an intermediate result does not change the wrapped sum. *)
Lemma wrap_add_l (x y : Z) : wrap (wrap x + y) = wrap (x + y).
Proof.
  unfold wrap, modulus, half.
  replace ((x + 2 ^ 63) mod 2 ^ 64 - 2 ^ 63 + y + 2 ^ 63)
    with ((x + 2 ^ 63) mod 2 ^ 64 + y) by lia.
  rewrite Zplus_mod_idemp_l. f_equal. f_equal. lia.
Qed.

Lemma AddInt64_AddInt64 (p x y : Z) :
  AddInt64 (AddInt64 p x) y = AddInt64 p (x + y).
Proof.
  unfold AddInt64, add. rewrite wrap_add_l. f_equal. lia.
Qed.

Lemma AddInt64_0 (p : Z) : in_range p -> AddInt64 p 0 = p.
Proof.
  intros Hp. unfold AddInt64, add. rewrite Z.add_0_r. now apply wrap_small.
Qed.

Lemma delta64_AddInt64 (p d : Z) : delta64 p (AddInt64 p d) = wrap d.
Proof.
  unfold delta64, sub, AddInt64, add.
  replace (wrap (p + d) - p) with (wrap (p + d) + - p) by lia.
  rewrite wrap_add_l. f_equal. lia.
Qed.

Lemma delta64_same (p : Z) : delta64 p p = 0.
Proof. unfold delta64, sub. rewrite Z.sub_diag. reflexivity. Qed.

(** Adding [d] moves the counter whenever [d] is not a multiple of the
    modulus. *)
Lemma AddInt64_moves (p d : Z) : wrap d <> 0 -> AddInt64 p d <> p.
Proof.
  intros Hd Heq. apply Hd. rewrite <- (delta64_AddInt64 p d), Heq.
  apply delta64_same.
Qed.

(** Away from the two ends of the range the counter moves as an integer. *)
Lemma AddInt64_inc_exact (p : Z) :
  min_int <= p < max_int -> AddInt64 p 1 = p + 1.
Proof.
  intros Hp. unfold AddInt64, add. apply wrap_small.
  unfold in_range. lia.
Qed.

Lemma AddInt64_dec_exact (p : Z) :
  min_int < p <= max_int -> AddInt64 p (-1) = p - 1.
Proof.
  intros Hp. unfold AddInt64, add.
  replace (p + -1) with (p - 1) by lia. apply wrap_small.
  unfold in_range. lia.
Qed.

(** Changes measured on [int64] add up. *)
Lemma delta64_trans (p q r x y : Z) :
  delta64 p q = wrap x -> delta64 q r = wrap y ->
  delta64 p r = wrap (x + y).
Proof.
  unfold delta64, sub. intros Hx Hy.
  replace (r - p) with ((r - q) + (q - p)) by lia.
  rewrite <- wrap_add_l, Hy, wrap_add_l, Z.add_comm.
  rewrite <- wrap_add_l, Hx, wrap_add_l. reflexivity.
Qed.

End Int64Facts.

(** ** The quadrature loop *)

Module HallFacts.

Import Hall.

Lemma duplicate_record (r : Recv) (l : Locals) :
  duplicate r (record r l) = duplicate r l.
Proof. destruct r; reflexivity. Qed.

Lemma record_levels (r : Recv) (l : Locals) :
  (aLevel (record r l), bLevel (record r l))
  = levels_after r (aLevel l) (bLevel l).
Proof. destruct r; reflexivity. Qed.

Lemma iteration_duplicate (r : Recv) (l : Locals) (e : HallEncoder) :
  duplicate r l = true -> iteration r (l, e) = (record r l, e).
Proof.
  intros Hd. unfold iteration. now rewrite duplicate_record, Hd.
Qed.

Lemma iteration_accepted (r : Recv) (l : Locals) (e : HallEncoder) :
  accepted r l = true ->
  iteration r (l, e)
  = (let l2 := mkLocals (aLevel (record r l)) (bLevel (record r l))
                        (isA_of r) (level_of r) in
     (l2, count l2 e)).
Proof.
  unfold accepted. intros Ha. apply negb_true_iff in Ha.
  unfold iteration. now rewrite duplicate_record, Ha.
Qed.

(** The chain of [if]s computes the table of the specification; its last
    [else] is never taken. *)
Lemma count_table (l : Locals) (e : HallEncoder) :
  count l e
  = set_position e
      (apply_action (table (aLevel l) (bLevel l) (lastWasA l)) (position e)).
Proof. destruct l as [[] [] [] ?]; reflexivity. Qed.

Lemma apply_action_delta (act : Action) (p : Z) :
  delta64 p (apply_action act p) = 1 \/ delta64 p (apply_action act p) = -1.
Proof.
  destruct act; simpl; rewrite delta64_AddInt64; [left | right]; reflexivity.
Qed.

Lemma apply_action_moves (act : Action) (p : Z) : apply_action act p <> p.
Proof. destruct act; simpl; apply AddInt64_moves; discriminate. Qed.

Lemma apply_action_exact (act : Action) (p : Z) :
  Int64.min_int < p < Int64.max_int ->
  apply_action act p - p = 1 \/ apply_action act p - p = -1.
Proof.
  intros Hp. destruct act; simpl.
  - left. rewrite AddInt64_inc_exact; lia.
  - right. rewrite AddInt64_dec_exact; lia.
Qed.

(** After any delivery, accepted or not, the loop remembers exactly that
    delivery as the last one. *)
Lemma iteration_last (r : Recv) (st : Locals * HallEncoder) :
  lastWasA (fst (iteration r st)) = isA_of r /\
  lastLevel (fst (iteration r st)) = level_of r.
Proof.
  destruct st as [l e]. unfold iteration.
  destruct (duplicate r (record r l)) eqn:Hd; simpl; [| now split].
  rewrite duplicate_record in Hd. unfold duplicate in Hd.
  apply andb_true_iff in Hd as [H1 H2].
  apply eqb_prop in H1, H2. destruct r; simpl in *; now split.
Qed.

(** *** Steps of the machine and the counter *)

(** What a step of the goroutine does to the counter. *)
Lemma hall_loop_step_position (s s' : Sys) (l : Label) :
  exec s l = Some s' -> loop_label l = true ->
  position (enc s')
  = if accepts s l
    then apply_action
           (table (aLevel (loc s')) (bLevel (loc s')) (lastWasA (loc s')))
           (position (enc s))
    else position (enc s).
Proof.
  intros He Hl. destruct l; try discriminate; unfold exec in He;
    unfold accepts.
  - destruct (pc s); try discriminate. destruct (cancelled s); [| discriminate].
    now inversion He.
  - destruct (pc s); try discriminate. destruct (cancelled s); [discriminate |].
    now inversion He.
  - destruct (pc s); try discriminate. destruct (cancelled s); [| discriminate].
    now inversion He.
  - destruct (pc s); try discriminate.
    destruct (chanA s) as [| level waiting]; [discriminate |].
    destruct (accepted (FromA level) (loc s)) eqn:Ha.
    + rewrite (iteration_accepted _ _ _ Ha) in He. cbv zeta in He.
      inversion He; subst; clear He. simpl. now rewrite count_table.
    + unfold accepted in Ha. apply negb_false_iff in Ha.
      rewrite (iteration_duplicate _ _ _ Ha) in He. now inversion He.
  - destruct (pc s); try discriminate.
    destruct (chanB s) as [| level waiting]; [discriminate |].
    destruct (accepted (FromB level) (loc s)) eqn:Ha.
    + rewrite (iteration_accepted _ _ _ Ha) in He. cbv zeta in He.
      inversion He; subst; clear He. simpl. now rewrite count_table.
    + unfold accepted in Ha. apply negb_false_iff in Ha.
      rewrite (iteration_duplicate _ _ _ Ha) in He. now inversion He.
Qed.

(** Senders and the canceller do not touch the counter. *)
Lemma hall_env_step_position (s s' : Sys) (l : Label) :
  exec s l = Some s' -> loop_label l = false -> is_zero l = false ->
  position (enc s') = position (enc s).
Proof.
  intros He Hl Hz. destruct l; try discriminate; simpl in He;
    now inversion He.
Qed.

Lemma hall_quiet_step_position (s s' : Sys) (l : Label) :
  exec s l = Some s' -> accepts s l = false -> is_zero l = false ->
  position (enc s') = position (enc s).
Proof.
  intros He Ha Hz. destruct (loop_label l) eqn:Hl.
  - rewrite (hall_loop_step_position _ _ _ He Hl), Ha. reflexivity.
  - now apply hall_env_step_position with (l := l).
Qed.

Lemma hall_quiet_trace_position (tr : list Label) :
  forall s s', exec_trace s tr = Some s' -> quiet s tr = true ->
               position (enc s') = position (enc s).
Proof.
  induction tr as [| l tr IH]; intros s s' He Hq; simpl in *.
  - now inversion He.
  - destruct (exec s l) as [s1 |] eqn:E1; [| discriminate].
    apply andb_true_iff in Hq as [Hq Hq1].
    apply andb_true_iff in Hq as [Ha Hz].
    apply negb_true_iff in Ha, Hz.
    rewrite (IH _ _ He Hq1). now apply hall_quiet_step_position with (l := l).
Qed.

(** *** Reachable locals *)

Lemma iteration_consistent (r : Recv) (l : Locals) (e : HallEncoder) :
  consistent l = true -> consistent (fst (iteration r (l, e))) = true.
Proof.
  destruct l as [[] [] [] []]; destruct r as [[] | []];
    intros H; try discriminate H; reflexivity.
Qed.

Lemma reachable_consistent (l : Locals) :
  reachable l -> consistent l = true.
Proof.
  induction 1 as [| l e r _ IH]; [reflexivity |].
  now apply iteration_consistent.
Qed.

Lemma run_app (rs1 rs2 : list Recv) (st : Locals * HallEncoder) :
  run (rs1 ++ rs2) st = run rs2 (run rs1 st).
Proof. unfold run. apply fold_left_app. Qed.

Lemma run_reachable (rs : list Recv) :
  forall l e, reachable l -> reachable (fst (run rs (l, e))).
Proof.
  induction rs as [| r rs IH]; intros l e Hl; [exact Hl |].
  change (run (r :: rs) (l, e)) with (run rs (iteration r (l, e))).
  destruct (iteration r (l, e)) as [l1 e1] eqn:E.
  apply IH. change l1 with (fst (l1, e1)). rewrite <- E.
  now constructor.
Qed.



(** *** Full rotations *)

Lemma rotation_four (edge : bool -> bool -> Recv) (m : nat) (a b : bool) :
  edge = forward_edge \/ edge = reverse_edge ->
  rotation edge (4 + m) a b = rotation edge 4 a b ++ rotation edge m a b.
Proof.
  intros [-> | ->]; destruct a, b; reflexivity.
Qed.

(** From lines both low, the forward rotation is the sequence the
    specification gives: A up, B up, A down, B down. *)
Example forward_from_low :
  forward_cycles 1 (mkLocals false false false false)
  = [FromA true; FromB true; FromA false; FromB false].
Proof. reflexivity. Qed.

Example reverse_from_low :
  reverse_cycles 1 (mkLocals false false false false)
  = [FromB true; FromA true; FromB false; FromA false].
Proof. reflexivity. Qed.

(** One forward cycle: four decrements, and the levels are back where they
    were, so the next cycle starts from the same place. *)
Lemma forward_cycle (l : Locals) (e : HallEncoder) :
  consistent l = true ->
  let st := run (rotation forward_edge 4 (aLevel l) (bLevel l)) (l, e) in
  snd st = set_position e (AddInt64 (position e) (-4)) /\
  aLevel (fst st) = aLevel l /\ bLevel (fst st) = bLevel l /\
  consistent (fst st) = true.
Proof.
  destruct l as [[] [] [] []]; intros H; try discriminate H;
    cbv [run rotation fold_left forward_edge levels_after iteration record
         duplicate count isA_of level_of aLevel bLevel lastWasA lastLevel
         Bool.eqb negb andb inc dec set_position position fst snd a b
         consistent];
    rewrite !AddInt64_AddInt64; repeat split.
Qed.

Lemma reverse_cycle (l : Locals) (e : HallEncoder) :
  consistent l = true ->
  let st := run (rotation reverse_edge 4 (aLevel l) (bLevel l)) (l, e) in
  snd st = set_position e (AddInt64 (position e) 4) /\
  aLevel (fst st) = aLevel l /\ bLevel (fst st) = bLevel l /\
  consistent (fst st) = true.
Proof.
  destruct l as [[] [] [] []]; intros H; try discriminate H;
    cbv [run rotation fold_left reverse_edge levels_after iteration record
         duplicate count isA_of level_of aLevel bLevel lastWasA lastLevel
         Bool.eqb negb andb inc dec set_position position fst snd a b
         consistent];
    rewrite !AddInt64_AddInt64; repeat split.
Qed.

(** Any number of cycles, for a direction whose single cycle moves the
    counter by [d] and restores the levels. *)
Section Cycles.

Variable edge : bool -> bool -> Recv.
Variable d : Z.

Hypothesis edge_four : forall m a b,
  rotation edge (4 + m) a b = rotation edge 4 a b ++ rotation edge m a b.

Hypothesis one_cycle : forall l e,
  consistent l = true ->
  let st := run (rotation edge 4 (aLevel l) (bLevel l)) (l, e) in
  snd st = set_position e (AddInt64 (position e) d) /\
  aLevel (fst st) = aLevel l /\ bLevel (fst st) = bLevel l /\
  consistent (fst st) = true.

Lemma cycles_run (k : nat) :
  forall l e,
    consistent l = true ->
    let st := run (rotation edge (4 * k) (aLevel l) (bLevel l)) (l, e) in
    delta64 (position e) (position (snd st))
    = Int64.wrap (d * Z.of_nat k) /\
    aLevel (fst st) = aLevel l /\ bLevel (fst st) = bLevel l.
Proof.
  induction k as [| k IH]; intros l e Hc.
  - simpl. rewrite delta64_same, Z.mul_0_r. repeat split.
  - replace (4 * S k)%nat with (4 + 4 * k)%nat by lia.
    rewrite edge_four, run_app.
    destruct (one_cycle l e Hc) as (Hs & Ha & Hb & Hc1).
    destruct (run (rotation edge 4 (aLevel l) (bLevel l)) (l, e))
      as [l1 e1] eqn:E1.
    simpl in Hs, Ha, Hb, Hc1. subst e1.
    destruct (IH l1 (set_position e (AddInt64 (position e) d)) Hc1)
      as (Hd & Ha' & Hb').
    rewrite Ha, Hb in Hd, Ha', Hb'. cbv zeta. repeat split.
    + replace (d * Z.of_nat (S k)) with (d + d * Z.of_nat k) by lia.
      eapply delta64_trans; [| exact Hd].
      simpl. apply delta64_AddInt64.
    + exact Ha'.
    + exact Hb'.
Qed.

End Cycles.

(** *** The transition table *)

(** C1.  An edge that passes the duplicate test moves the counter as the
    transition table says, read at the cached levels as they are once the
    edge is recorded: with both levels equal, an edge from channel A
    increments and an edge from channel B decrements; with the levels
    different, an edge from A decrements and an edge from B increments.
    The loop then remembers the edge as the last accepted one. *)
Theorem accepted_edge_follows_table
    (r : Recv) (l : Locals) (e : HallEncoder) :
  accepted r l = true ->
  let st := iteration r (l, e) in
  (aLevel (fst st), bLevel (fst st)) = levels_after r (aLevel l) (bLevel l) /\
  lastWasA (fst st) = isA_of r /\
  lastLevel (fst st) = level_of r /\
  position (snd st)
  = apply_action (table (aLevel (fst st)) (bLevel (fst st)) (isA_of r))
                 (position e) /\
  position (snd st)
  = (if Bool.eqb (aLevel (fst st)) (bLevel (fst st))
     then if isA_of r then AddInt64 (position e) 1
          else AddInt64 (position e) (-1)
     else if isA_of r then AddInt64 (position e) (-1)
          else AddInt64 (position e) 1).
Proof.
  intros Ha. cbv zeta. rewrite (iteration_accepted _ _ _ Ha). cbv zeta.
  cbn [fst snd aLevel bLevel lastWasA lastLevel].
  rewrite count_table.
  cbn [set_position position aLevel bLevel lastWasA].
  repeat split.
  - apply record_levels.
  - destruct r as [[] | []], l as [[] [] ? ?]; reflexivity.
Qed.

Lemma accepted_edge_follows_table_witness :
  position
    (snd (iteration (FromA false)
            (init_locals,
             NewHallEncoder (mkDigitalInterrupt []) (mkDigitalInterrupt []))))
  = apply_action (table false true true) 0.
Proof.
  exact (proj1 (proj2 (proj2 (proj2
           (accepted_edge_follows_table (FromA false) init_locals
              (NewHallEncoder (mkDigitalInterrupt []) (mkDigitalInterrupt []))
              eq_refl))))).
Defined.

(** *** The duplicate filter *)

(** C3.  An event from the channel of the last accepted event, carrying
    that event's level, is discarded: the counter and the record of the
    last accepted event stay as they are (only the cached level of the
    channel is written again).  So when the same channel and level are
    delivered twice in a row, the second delivery leaves [Position] as the
    first one left it, whatever the state before. *)
Theorem duplicate_is_discarded (r : Recv) (l : Locals) (e : HallEncoder) :
  isA_of r = lastWasA l -> level_of r = lastLevel l ->
  iteration r (l, e) = (record r l, e) /\
  lastWasA (fst (iteration r (l, e))) = lastWasA l /\
  lastLevel (fst (iteration r (l, e))) = lastLevel l /\
  (forall ctx, Position (snd (iteration r (l, e))) ctx = Position e ctx) /\
  (forall st ctx,
      Position (snd (run [r; r] st)) ctx = Position (snd (run [r] st)) ctx).
Proof.
  intros H1 H2.
  assert (Hd : duplicate r l = true).
  { unfold duplicate. rewrite H1, H2, !eqb_reflx. reflexivity. }
  rewrite (iteration_duplicate _ _ _ Hd). repeat split.
  - destruct r; reflexivity.
  - destruct r; reflexivity.
  - intros st ctx. change (run [r; r] st) with (iteration r (iteration r st)).
    change (run [r] st) with (iteration r st).
    destruct (iteration_last r st) as [L1 L2].
    destruct (iteration r st) as [l1 e1]. simpl in L1, L2.
    rewrite iteration_duplicate; [reflexivity |].
    unfold duplicate. rewrite L1, L2, !eqb_reflx. reflexivity.
Qed.

Lemma duplicate_is_discarded_witness :
  iteration (FromB false)
    (mkLocals true false false false,
     NewHallEncoder (mkDigitalInterrupt []) (mkDigitalInterrupt []))
  = (mkLocals true false false false,
     NewHallEncoder (mkDigitalInterrupt []) (mkDigitalInterrupt [])).
Proof.
  exact (proj1 (duplicate_is_discarded (FromB false)
                  (mkLocals true false false false)
                  (NewHallEncoder (mkDigitalInterrupt [])
                                  (mkDigitalInterrupt []))
                  eq_refl eq_refl)).
Defined.

(** C4.  [Start] gives the loop the locals [aLevel = bLevel = lastWasA =
    lastLevel = true]; they are constants, no line is read.  A first event
    from channel A with level true is therefore taken for a duplicate: it
    is discarded and the counter keeps its value, also when the line really
    went from low to high. *)
Theorem first_rising_A_is_dropped
    (e : HallEncoder) (cancelCtx : Context) (activeBackgroundWorkers : Z) :
  let s := Start e cancelCtx activeBackgroundWorkers in
  loc s = mkLocals true true true true /\
  position (enc s) = position e /\
  duplicate (FromA true) (loc s) = true /\
  iteration (FromA true) (loc s, enc s) = (loc s, enc s) /\
  (let s0 := Start e (mkContext false) activeBackgroundWorkers in
   exists s' s1,
     exec_trace s0 [SendA true; TopDefault] = Some s' /\
     accepts s' RecvA = false /\
     exec s' RecvA = Some s1 /\
     enc s1 = enc s0 /\ loc s1 = loc s0 /\ chanA s1 = []).
Proof.
  cbv zeta. repeat split.
  do 2 eexists. repeat split.
Qed.

(** *** Full rotations *)

(** C2, as stated, fails at the state in which the loop starts.  With the
    lines low at [Start], one forward rotation is A up, B up, A down,
    B down; the loop holds [lastWasA = lastLevel = true], drops the first
    edge as a duplicate and counts three: [Position] goes from 0 to -3.
    The same is seen on the machine, each edge being sent and then
    received.  The opposite rotation that begins with A up (lines at
    A low, B high) counts +3. *)
Lemma rotation_after_start_counts_three :
  let e0 := NewHallEncoder (mkDigitalInterrupt []) (mkDigitalInterrupt []) in
  let ctx := mkContext false in
  let s0 := Start e0 ctx 0 in
  let st :=
    run [FromA true; FromB true; FromA false; FromB false] (loc s0, enc s0) in
  let st' :=
    run [FromA true; FromB false; FromA false; FromB true] (loc s0, enc s0) in
  Position (enc s0) ctx = (0, None) /\
  Position (snd st) ctx = (-3, None) /\
  delta64 (position (enc s0)) (position (snd st)) = -3 /\
  Position (snd st') ctx = (3, None) /\
  (exists s1,
      exec_trace s0 [SendA true; TopDefault; RecvA;
                     SendB true; TopDefault; RecvB;
                     SendA false; TopDefault; RecvA;
                     SendB false; TopDefault; RecvB] = Some s1 /\
      Position (enc s1) ctx = (-3, None)) /\
  ~ (delta64 (position (enc s0)) (position (snd st)) = 4 \/
     delta64 (position (enc s0)) (position (snd st)) = -4).
Proof.
  cbv zeta. split; [| split; [| split; [| split; [| split]]]].
  - vm_compute. reflexivity.
  - vm_compute. reflexivity.
  - vm_compute. reflexivity.
  - vm_compute. reflexivity.
  - eexists. split; vm_compute; reflexivity.
  - vm_compute. intros [H | H]; discriminate H.
Qed.

(** C2, amended.  From every state the loop can reach, [k] cycles of four
    edges that start at the cached levels and toggle one line at a time
    move [Position] by [-4 * k] in the direction in which A leads (from
    (false,false): A up, B up, A down, B down) and by [+4 * k] in the
    opposite direction, on [int64].  One cycle moves it by exactly -4,
    respectively +4; it leaves a reachable state with the same cached
    levels, so every further cycle counts the same. *)
Theorem full_rotation_counts_four (l : Locals) (e : HallEncoder) (k : nat) :
  reachable l ->
  let fwd := run (forward_cycles k l) (l, e) in
  let rev := run (reverse_cycles k l) (l, e) in
  delta64 (position e) (position (snd fwd)) = Int64.wrap (-4 * Z.of_nat k) /\
  delta64 (position e) (position (snd rev)) = Int64.wrap (4 * Z.of_nat k) /\
  delta64 (position e) (position (snd (run (forward_cycles 1 l) (l, e))))
  = -4 /\
  delta64 (position e) (position (snd (run (reverse_cycles 1 l) (l, e))))
  = 4 /\
  (reachable (fst fwd) /\
   aLevel (fst fwd) = aLevel l /\ bLevel (fst fwd) = bLevel l) /\
  (reachable (fst rev) /\
   aLevel (fst rev) = aLevel l /\ bLevel (fst rev) = bLevel l).
Proof.
  intros Hr. pose proof (reachable_consistent l Hr) as Hc.
  assert (F : forall n,
             delta64 (position e)
               (position (snd (run (forward_cycles n l) (l, e))))
             = Int64.wrap (-4 * Z.of_nat n) /\
             aLevel (fst (run (forward_cycles n l) (l, e))) = aLevel l /\
             bLevel (fst (run (forward_cycles n l) (l, e))) = bLevel l).
  { intros n. apply (cycles_run forward_edge (-4)); auto.
    - intros. apply rotation_four. now left.
    - apply forward_cycle. }
  assert (R : forall n,
             delta64 (position e)
               (position (snd (run (reverse_cycles n l) (l, e))))
             = Int64.wrap (4 * Z.of_nat n) /\
             aLevel (fst (run (reverse_cycles n l) (l, e))) = aLevel l /\
             bLevel (fst (run (reverse_cycles n l) (l, e))) = bLevel l).
  { intros n. apply (cycles_run reverse_edge 4); auto.
    - intros. apply rotation_four. now right.
    - apply reverse_cycle. }
  cbv zeta.
  destruct (F k) as (F1 & F2 & F3), (R k) as (R1 & R2 & R3).
  repeat split; try assumption.
  - exact (proj1 (F 1%nat)).
  - exact (proj1 (R 1%nat)).
  - now apply run_reachable.
  - now apply run_reachable.
Qed.

Lemma full_rotation_counts_four_witness :
  delta64 0
    (position
       (snd (run (forward_cycles 2 init_locals)
               (init_locals,
                NewHallEncoder (mkDigitalInterrupt [])
                               (mkDigitalInterrupt [])))))
  = Int64.wrap (-4 * Z.of_nat 2).
Proof.
  exact (proj1 (full_rotation_counts_four init_locals
                  (NewHallEncoder (mkDigitalInterrupt [])
                                  (mkDigitalInterrupt []))
                  2 reach_init)).
Defined.

End HallFacts.

(** ** The single-interrupt loop *)

Module SingleFacts.

Import Single.

(** One received pulse, motor set: the counter and the log afterwards. *)
Lemma iteration_some (rpmDebug : bool) (e : SingleEncoder) (m : EncodedMotor) :
  M e = Some m ->
  iteration rpmDebug e
  = Some
      (match rawDirection m with
       | DIRECTION_RELATIVE_FORWARD =>
           mkSingleEncoder (i e) (AddInt64 (position e) 1) (Some m)
       | DIRECTION_RELATIVE_BACKWARD =>
           mkSingleEncoder (i e) (AddInt64 (position e) (-1)) (Some m)
       | DIRECTION_RELATIVE_UNSPECIFIED =>
           mkSingleEncoder (i e) (position e)
             (Some (if rpmDebug
                    then logger_Warn m
                           "got encoder tick but motor should be off"%string
                    else m))
       end).
Proof.
  intros Hm. unfold iteration. rewrite Hm.
  destruct (rawDirection m); simpl; try reflexivity.
  destruct rpmDebug; [reflexivity |].
  destruct e; simpl in *; now subst.
Qed.

Lemma iteration_position (rpmDebug : bool) (e e' : SingleEncoder) :
  iteration rpmDebug e = Some e' ->
  position e'
  = if counted e
    then match M e with
         | Some m => AddInt64 (position e) (dispatch (rawDirection m))
         | None => position e
         end
    else position e.
Proof.
  unfold counted. destruct (M e) as [m |] eqn:Hm.
  - rewrite (iteration_some _ _ _ Hm). intros H; inversion H; subst; clear H.
    destruct (rawDirection m); reflexivity.
  - unfold iteration. rewrite Hm. discriminate.
Qed.

Lemma dispatch_counted (m : EncodedMotor) :
  DirectionRelative_eqb (rawDirection m) DIRECTION_RELATIVE_UNSPECIFIED
  = false ->
  dispatch (rawDirection m) = 1 \/ dispatch (rawDirection m) = -1.
Proof. destruct (rawDirection m); simpl; auto; discriminate. Qed.

(** What a step of the goroutine does to the counter. *)
Lemma single_loop_step_position (s s' : Sys) (l : Label) :
  exec s l = Some s' -> loop_label l = true ->
  position (enc s')
  = if accepts s l
    then match M (enc s) with
         | Some m => AddInt64 (position (enc s)) (dispatch (rawDirection m))
         | None => position (enc s)
         end
    else position (enc s).
Proof.
  intros He Hl. destruct l; try discriminate; unfold exec in He;
    unfold accepts.
  - destruct (pc s); try discriminate. destruct (cancelled s); [| discriminate].
    now inversion He.
  - destruct (pc s); try discriminate. destruct (cancelled s); [discriminate |].
    now inversion He.
  - destruct (pc s); try discriminate. destruct (cancelled s); [| discriminate].
    now inversion He.
  - destruct (pc s); try discriminate.
    destruct (encoderChannel s) as [| level waiting]; [discriminate |].
    destruct (iteration (rpmDebug s) (enc s)) as [e' |] eqn:Hi.
    + inversion He; subst; clear He. simpl.
      now apply iteration_position with (rpmDebug := rpmDebug s).
    + inversion He; subst; clear He. simpl.
      unfold iteration in Hi. unfold counted.
      destruct (M (enc s)); [| reflexivity].
      destruct (DirectionRelative_eqb _ DIRECTION_RELATIVE_FORWARD);
        [discriminate |].
      destruct (DirectionRelative_eqb _ DIRECTION_RELATIVE_BACKWARD);
        [discriminate |].
      destruct (rpmDebug s); discriminate.
Qed.

(** Senders, the canceller and the motor do not touch the counter. *)
Lemma single_env_step_position (s s' : Sys) (l : Label) :
  exec s l = Some s' -> loop_label l = false -> is_zero l = false ->
  position (enc s') = position (enc s).
Proof.
  intros He Hl Hz. destruct l; try discriminate; simpl in He;
    now inversion He.
Qed.

Lemma single_quiet_step_position (s s' : Sys) (l : Label) :
  exec s l = Some s' -> accepts s l = false -> is_zero l = false ->
  position (enc s') = position (enc s).
Proof.
  intros He Ha Hz. destruct (loop_label l) eqn:Hl.
  - rewrite (single_loop_step_position _ _ _ He Hl), Ha. reflexivity.
  - now apply single_env_step_position with (l := l).
Qed.

Lemma single_quiet_trace_position (tr : list Label) :
  forall s s', exec_trace s tr = Some s' -> quiet s tr = true ->
               position (enc s') = position (enc s).
Proof.
  induction tr as [| l tr IH]; intros s s' He Hq; simpl in *.
  - now inversion He.
  - destruct (exec s l) as [s1 |] eqn:E1; [| discriminate].
    apply andb_true_iff in Hq as [Hq Hq1].
    apply andb_true_iff in Hq as [Ha Hz].
    apply negb_true_iff in Ha, Hz.
    rewrite (IH _ _ He Hq1). now apply single_quiet_step_position with (l := l).
Qed.

(** *** Direction dispatch *)

(** C5.  A pulse received while the motor reads FORWARD moves the counter
    by +1, while it reads BACKWARD by -1; with any other reading the
    counter keeps its value, and the warning is written to the motor's
    logger exactly when the debug flag is set.  In the first two cases
    nothing is logged. *)
Theorem pulse_follows_direction
    (rpmDebug : bool) (e : SingleEncoder) (m : EncodedMotor) :
  M e = Some m ->
  exists e' m',
    iteration rpmDebug e = Some e' /\ M e' = Some m' /\
    delta64 (position e) (position e') = dispatch (rawDirection m) /\
    match rawDirection m with
    | DIRECTION_RELATIVE_FORWARD =>
        position e' = AddInt64 (position e) 1 /\ logger m' = logger m
    | DIRECTION_RELATIVE_BACKWARD =>
        position e' = AddInt64 (position e) (-1) /\ logger m' = logger m
    | DIRECTION_RELATIVE_UNSPECIFIED =>
        position e' = position e /\
        logger m'
        = if rpmDebug
          then logger m
               ++ [Warn "got encoder tick but motor should be off"%string]
          else logger m
    end.
Proof.
  intros Hm. rewrite (iteration_some _ _ _ Hm).
  destruct (rawDirection m) eqn:Hd; do 2 eexists;
    (split; [reflexivity |]); (split; [reflexivity |]); simpl.
  - split; [apply delta64_same |]. split; [reflexivity |].
    now destruct rpmDebug.
  - split; [apply delta64_AddInt64 | now split].
  - split; [apply delta64_AddInt64 | now split].
Qed.

Lemma pulse_follows_direction_witness :
  exists e' m',
    iteration true
      (mkSingleEncoder (mkDigitalInterrupt []) 7
         (Some (mkEncodedMotor DIRECTION_RELATIVE_UNSPECIFIED []))) = Some e' /\
    M e' = Some m' /\
    delta64 7 (position e') = 0 /\
    position e' = 7 /\
    logger m' = [Warn "got encoder tick but motor should be off"%string].
Proof.
  exact (pulse_follows_direction true
           (mkSingleEncoder (mkDigitalInterrupt []) 7
              (Some (mkEncodedMotor DIRECTION_RELATIVE_UNSPECIFIED [])))
           (mkEncodedMotor DIRECTION_RELATIVE_UNSPECIFIED []) eq_refl).
Defined.

End SingleFacts.

(** ** Both encoders, through the interface *)

Section Interface.

Lemma hall_cancelled_step (s s' : Hall.Sys) (l : Hall.Label) :
  Hall.exec s l = Some s' -> Hall.cancelled s = true ->
  Hall.cancelled s' = true /\
  ((if Hall.loop_label l then 1 else 0) + steps_left (Hall.pc s')
   <= steps_left (Hall.pc s))%nat /\
  ((if Hall.receive_label l then 1 else 0) + receives_left (Hall.pc s')
   <= receives_left (Hall.pc s))%nat.
Proof.
  intros He Hc. destruct l; unfold Hall.exec in He; rewrite ?Hc in He.
  - destruct (Hall.pc s) eqn:P; try discriminate.
    inversion He; subst; simpl. rewrite ?Hc. repeat split; lia.
  - destruct (Hall.pc s); discriminate.
  - destruct (Hall.pc s) eqn:P; try discriminate.
    inversion He; subst; simpl. rewrite ?Hc. repeat split; lia.
  - destruct (Hall.pc s) eqn:P; try discriminate.
    destruct (Hall.chanA s); [discriminate |].
    destruct (Hall.iteration _ _). inversion He; subst; simpl.
    repeat split; lia.
  - destruct (Hall.pc s) eqn:P; try discriminate.
    destruct (Hall.chanB s); [discriminate |].
    destruct (Hall.iteration _ _). inversion He; subst; simpl.
    repeat split; lia.
  - inversion He; subst; simpl. repeat split; lia.
  - inversion He; subst; simpl. rewrite ?Hc. repeat split; lia.
  - inversion He; subst; simpl. rewrite ?Hc. repeat split; lia.
  - inversion He; subst; simpl. rewrite ?Hc. repeat split; lia.
Qed.

Lemma single_cancelled_step (s s' : Single.Sys) (l : Single.Label) :
  Single.exec s l = Some s' -> Single.cancelled s = true ->
  Single.cancelled s' = true /\
  ((if Single.loop_label l then 1 else 0) + steps_left (Single.pc s')
   <= steps_left (Single.pc s))%nat /\
  ((if Single.receive_label l then 1 else 0) + receives_left (Single.pc s')
   <= receives_left (Single.pc s))%nat.
Proof.
  intros He Hc. destruct l; unfold Single.exec in He; rewrite ?Hc in He.
  - destruct (Single.pc s) eqn:P; try discriminate.
    inversion He; subst; simpl. rewrite ?Hc. repeat split; lia.
  - destruct (Single.pc s); discriminate.
  - destruct (Single.pc s) eqn:P; try discriminate.
    inversion He; subst; simpl. rewrite ?Hc. repeat split; lia.
  - destruct (Single.pc s) eqn:P; try discriminate.
    destruct (Single.encoderChannel s); [discriminate |].
    destruct (Single.iteration _ _); inversion He; subst; simpl;
      repeat split; lia.
  - inversion He; subst; simpl. repeat split; lia.
  - inversion He; subst; simpl. rewrite ?Hc. repeat split; lia.
  - inversion He; subst; simpl. rewrite ?Hc. repeat split; lia.
  - inversion He; subst; simpl. rewrite ?Hc. repeat split; lia.
Qed.

Lemma cancelled_step (s s' : Loop) (l : Label) :
  exec s l = Some s' -> cancelled s = true ->
  cancelled s' = true /\
  ((if loop_label l then 1 else 0) + steps_left (pc s')
   <= steps_left (pc s))%nat /\
  ((if receive_label l then 1 else 0) + receives_left (pc s')
   <= receives_left (pc s))%nat.
Proof.
  destruct s as [h | g], l as [l | l]; simpl; try discriminate.
  - destruct (Hall.exec h l) as [h' |] eqn:E; [| discriminate].
    intros H Hc; inversion H; subst. now apply hall_cancelled_step.
  - destruct (Single.exec g l) as [g' |] eqn:E; [| discriminate].
    intros H Hc; inversion H; subst. now apply single_cancelled_step.
Qed.

Lemma count_labels_cons (f : Label -> bool) (l : Label) (tr : list Label) :
  count_labels f (l :: tr)
  = ((if f l then 1 else 0) + count_labels f tr)%nat.
Proof. unfold count_labels. simpl. now destruct (f l). Qed.

Lemma cancelled_trace (tr : list Label) :
  forall s s',
    exec_trace s tr = Some s' -> cancelled s = true ->
    cancelled s' = true /\
    (count_labels loop_label tr + steps_left (pc s')
     <= steps_left (pc s))%nat /\
    (count_labels receive_label tr + receives_left (pc s')
     <= receives_left (pc s))%nat.
Proof.
  induction tr as [| l tr IH]; intros s s' He Hc.
  - inversion He; subst. unfold count_labels. simpl.
    repeat split; [assumption | lia | lia].
  - simpl in He. destruct (exec s l) as [s1 |] eqn:E1; [| discriminate].
    destruct (cancelled_step _ _ _ E1 Hc) as (Hc1 & Hs & Hr).
    destruct (IH _ _ He Hc1) as (Hc' & Hs' & Hr').
    rewrite !count_labels_cons. repeat split; [assumption | lia | lia].
Qed.

(** A cancelled goroutine that has not returned can return, and cannot
    take the [default] branch. *)
Lemma cancelled_can_exit (s : Loop) :
  cancelled s = true ->
  exec s (top_default s) = None /\
  (pc s = AtTop ->
   exists s', exec s (top_done s) = Some s' /\ pc s' = Exited /\
              encoder s' = encoder s /\ workers s' = workers s - 1) /\
  (pc s = AtRecv ->
   exists s', exec s (recv_done s) = Some s' /\ pc s' = Exited /\
              encoder s' = encoder s /\ workers s' = workers s - 1).
Proof.
  destruct s as [h | g]; simpl; intros Hc.
  - unfold Hall.exec. rewrite Hc. repeat split.
    + now destruct (Hall.pc h).
    + intros ->. eexists. simpl. repeat split.
    + intros ->. eexists. simpl. repeat split.
  - unfold Single.exec. rewrite Hc. repeat split.
    + now destruct (Single.pc g).
    + intros ->. eexists. simpl. repeat split.
    + intros ->. eexists. simpl. repeat split.
Qed.

(** At the top of an iteration a cancelled goroutine can only return. *)
Lemma cancelled_top_step (s s' : Loop) (l : Label) :
  exec s l = Some s' -> loop_label l = true ->
  cancelled s = true -> pc s = AtTop -> pc s' = Exited.
Proof.
  destruct s as [h | g], l as [l | l]; simpl; try discriminate.
  - intros He Hl Hc P. destruct l; try discriminate Hl;
      unfold Hall.exec in He; rewrite Hc, P in He; try discriminate He.
    simpl in He. now inversion He.
  - intros He Hl Hc P. destruct l; try discriminate Hl;
      unfold Single.exec in He; rewrite Hc, P in He; try discriminate He.
    simpl in He. now inversion He.
Qed.

Lemma steps_left_bound (p : PC) :
  (steps_left p <= 2 /\ receives_left p <= 1)%nat.
Proof. destruct p; simpl; lia. Qed.

(** *** The counter along a trace *)

Lemma quiet_step (s s' : Loop) (l : Label) (ctx : Context) :
  exec s l = Some s' -> accepts s l = false -> is_zero l = false ->
  Position (encoder s') ctx = Position (encoder s) ctx.
Proof.
  destruct s as [h | g], l as [l | l]; simpl; try discriminate.
  - destruct (Hall.exec h l) as [h' |] eqn:E; [| discriminate].
    intros H Ha Hz; inversion H; subst. simpl. unfold Hall.Position.
    now rewrite (HallFacts.hall_quiet_step_position _ _ _ E Ha Hz).
  - destruct (Single.exec g l) as [g' |] eqn:E; [| discriminate].
    intros H Ha Hz; inversion H; subst. simpl. unfold Single.Position.
    now rewrite (SingleFacts.single_quiet_step_position _ _ _ E Ha Hz).
Qed.

Lemma quiet_trace (tr : list Label) (ctx : Context) :
  forall s s',
    exec_trace s tr = Some s' -> quiet s tr = true ->
    Position (encoder s') ctx = Position (encoder s) ctx.
Proof.
  induction tr as [| l tr IH]; intros s s' He Hq; simpl in *.
  - now inversion He.
  - destruct (exec s l) as [s1 |] eqn:E1; [| discriminate].
    apply andb_true_iff in Hq as [Hq Hq1].
    apply andb_true_iff in Hq as [Ha Hz].
    apply negb_true_iff in Ha, Hz.
    rewrite (IH _ _ He Hq1). now apply quiet_step with (l := l).
Qed.

Lemma Zero_Position (e : Encoder) (ctx ctx' : Context) (offset : Z) :
  Position (fst (Zero e ctx offset)) ctx' = (offset, None).
Proof. destruct e; reflexivity. Qed.

Lemma zero_step (s s1 : Loop) (ctx : Context) (offset : Z) :
  exec s (zero_label s ctx offset) = Some s1 ->
  encoder s1 = fst (Zero (encoder s) ctx offset) /\
  pc s1 = pc s /\ cancelled s1 = cancelled s.
Proof.
  destruct s as [h | g]; simpl; intros H; inversion H; subst;
    repeat split.
Qed.

(** What an accepted event does to the counter. *)
Lemma accepted_step (s s' : Loop) (l : Label) (ctx : Context) :
  exec s l = Some s' -> accepts s l = true ->
  exists d, (d = 1 \/ d = -1) /\
            fst (Position (encoder s') ctx)
            = AddInt64 (fst (Position (encoder s) ctx)) d.
Proof.
  destruct s as [h | g], l as [l | l]; simpl; try discriminate.
  - destruct (Hall.exec h l) as [h' |] eqn:E; [| discriminate].
    intros H Ha; inversion H; subst; clear H. simpl.
    assert (Hl : Hall.loop_label l = true).
    { destruct l; try reflexivity; discriminate Ha. }
    rewrite (HallFacts.hall_loop_step_position _ _ _ E Hl), Ha.
    destruct (Hall.table _ _ _); simpl; eauto.
  - destruct (Single.exec g l) as [g' |] eqn:E; [| discriminate].
    intros H Ha; inversion H; subst; clear H. simpl.
    assert (Hl : Single.loop_label l = true).
    { destruct l; try reflexivity; discriminate Ha. }
    rewrite (SingleFacts.single_loop_step_position _ _ _ E Hl), Ha.
    assert (Hcnt : Single.counted (Single.enc g) = true).
    { destruct l; try discriminate Ha. simpl in Ha.
      destruct (Single.pc g); try discriminate Ha.
      now destruct (Single.encoderChannel g). }
    unfold Single.counted in Hcnt.
    destruct (Single.M (Single.enc g)) as [m |]; [| discriminate].
    apply negb_true_iff in Hcnt.
    exists (Single.dispatch (Single.rawDirection m)). split; [| reflexivity].
    now apply SingleFacts.dispatch_counted.
Qed.

(** *** Zero and Position *)

(** C6.  For both encoders and every [X]: once a call [Zero(ctx, X)] has
    written the counter, [Position] returns [X], and keeps returning [X]
    along every trace of the goroutine and its environment on which no
    edge is accepted, no pulse counts and [Zero] is not called again --
    whatever else happens (duplicates dropped, senders queueing,
    cancellation).  The same holds for an encoder that was never
    started. *)
Theorem zero_then_position
    (s s1 s2 : Loop) (ctx ctx' : Context) (X : Z) (tr : list Label) :
  exec s (zero_label s ctx X) = Some s1 ->
  exec_trace s1 tr = Some s2 ->
  quiet s1 tr = true ->
  Position (encoder s1) ctx' = (X, None) /\
  Position (encoder s2) ctx' = (X, None) /\
  (forall e : Encoder, Position (fst (Zero e ctx X)) ctx' = (X, None)).
Proof.
  intros Hz He Hq. destruct (zero_step _ _ _ _ Hz) as (Henc & _ & _).
  assert (H1 : Position (encoder s1) ctx' = (X, None)).
  { rewrite Henc. apply Zero_Position. }
  repeat split.
  - exact H1.
  - rewrite (quiet_trace tr ctx' _ _ He Hq). exact H1.
  - intros e. apply Zero_Position.
Qed.

Lemma zero_then_position_witness :
  exists s1 s2,
    exec (Start (HallOf (Hall.NewHallEncoder (mkDigitalInterrupt [])
                                              (mkDigitalInterrupt [])))
                (mkContext false) 0 false)
         (HallLabel (Hall.CallZero (mkContext false) 42)) = Some s1 /\
    exec_trace s1 [HallLabel (Hall.SendA true); HallLabel Hall.TopDefault;
                   HallLabel Hall.RecvA; HallLabel Hall.Cancel;
                   HallLabel Hall.TopDone] = Some s2 /\
    Position (encoder s2) (mkContext true) = (42, None).
Proof.
  do 2 eexists. split; [reflexivity |]. split; [reflexivity |].
  refine (proj1 (proj2 (zero_then_position
                          (Start (HallOf (Hall.NewHallEncoder
                                            (mkDigitalInterrupt [])
                                            (mkDigitalInterrupt [])))
                                 (mkContext false) 0 false)
                          _ _ (mkContext false) (mkContext true) 42
                          [HallLabel (Hall.SendA true);
                           HallLabel Hall.TopDefault;
                           HallLabel Hall.RecvA; HallLabel Hall.Cancel;
                           HallLabel Hall.TopDone]
                          eq_refl eq_refl eq_refl))).
Defined.

(** C7.  [Position] and [Zero] never fail, on either encoder, whatever the
    context, the offset and the counter: the error they return is [nil],
    and [Position] returns the counter with it. *)
Theorem position_and_zero_succeed
    (e : Encoder) (ctx : Context) (offset : Z) :
  snd (Position e ctx) = None /\
  snd (Zero e ctx offset) = None /\
  (forall h : Hall.HallEncoder,
      Hall.Position h ctx = (Hall.position h, None) /\
      snd (Hall.Zero h ctx offset) = None) /\
  (forall g : Single.SingleEncoder,
      Single.Position g ctx = (Single.position g, None) /\
      snd (Single.Zero g ctx offset) = None).
Proof. destruct e; repeat split. Qed.

(** C9.  An encoder just built by [NewHallEncoder] or [NewSingleEncoder],
    not started, not zeroed, is at position 0: [Position] returns 0 (and no
    error). *)
Theorem new_encoder_at_zero (a b i : DigitalInterrupt) (ctx : Context) :
  Position (HallOf (Hall.NewHallEncoder a b)) ctx = (0, None) /\
  Position (SingleOf (Single.NewSingleEncoder i)) ctx = (0, None) /\
  Hall.RawPosition (Hall.NewHallEncoder a b) = 0.
Proof. repeat split. Qed.

(** *** One tick per accepted event *)

(** C8.  A transition of the goroutine that takes in an accepted edge (for
    the single-interrupt encoder: a pulse read as forward or backward)
    moves the counter by exactly +1 or -1, measured on [int64]: never by 0,
    and by +1 or -1 as integers whenever the counter is not at an end of
    the [int64] range.  Every other transition of the goroutine -- the two
    checks of the cancellation, a dropped duplicate, a pulse while the
    motor is off, the return -- leaves the counter as it is. *)
Theorem counter_moves_by_one
    (s s' : Loop) (l : Label) (ctx : Context) :
  exec s l = Some s' -> loop_label l = true ->
  let p := fst (Position (encoder s) ctx) in
  let p' := fst (Position (encoder s') ctx) in
  if accepts s l
  then (delta64 p p' = 1 \/ delta64 p p' = -1) /\
       p' <> p /\
       (Int64.min_int < p < Int64.max_int -> p' - p = 1 \/ p' - p = -1)
  else p' = p.
Proof.
  intros He Hl. cbv zeta. destruct (accepts s l) eqn:Ha.
  - destruct (accepted_step _ _ _ ctx He Ha) as (d & Hd & ->).
    repeat split.
    + rewrite delta64_AddInt64. destruct Hd as [-> | ->]; auto.
    + apply AddInt64_moves. destruct Hd as [-> | ->]; discriminate.
    + intros Hp. destruct Hd as [-> | ->].
      * left. rewrite AddInt64_inc_exact; lia.
      * right. rewrite AddInt64_dec_exact; lia.
  - assert (Hz : is_zero l = false).
    { destruct l as [[] | []]; try reflexivity; discriminate Hl. }
    now rewrite (quiet_step _ _ _ ctx He Ha Hz).
Qed.

Lemma counter_moves_by_one_witness :
  delta64 0 (-1) = 1 \/ delta64 0 (-1) = -1.
Proof.
  exact (proj1 (counter_moves_by_one
                  (HallLoop
                     (Hall.mkSys
                        (Hall.NewHallEncoder (mkDigitalInterrupt [])
                                             (mkDigitalInterrupt []))
                        Hall.init_locals AtRecv false [false] [] 1))
                  (HallLoop
                     (Hall.mkSys
                        (Hall.mkHallEncoder (mkDigitalInterrupt [])
                                            (mkDigitalInterrupt []) (-1))
                        (Hall.mkLocals false true true false)
                        AtTop false [] [] 1))
                  (HallLabel Hall.RecvA) (mkContext false)
                  eq_refl eq_refl)).
Defined.

(** *** Cancellation *)

(** C10, as stated, fails when an event is ready together with the
    cancellation.  A sender is blocked on [chanA]; the loop passes its
    first [select] (not cancelled yet); the context is cancelled; in the
    second [select] both cases can proceed, and when [chanA] is picked the
    loop, cancelled, processes the edge: the counter goes from 0 to -1 and
    the goroutine has not returned. *)
Lemma cancelled_loop_may_receive :
  let e0 := HallOf (Hall.NewHallEncoder (mkDigitalInterrupt [])
                                        (mkDigitalInterrupt [])) in
  let ctx := mkContext false in
  exists s1 s2,
    exec_trace (Start e0 ctx 0 false)
      [HallLabel (Hall.SendA false); HallLabel Hall.TopDefault;
       HallLabel Hall.Cancel] = Some s1 /\
    cancelled s1 = true /\
    Position (encoder s1) ctx = (0, None) /\
    exec s1 (HallLabel Hall.RecvA) = Some s2 /\
    receive_label (HallLabel Hall.RecvA) = true /\
    accepts s1 (HallLabel Hall.RecvA) = true /\
    Position (encoder s2) ctx = (-1, None) /\
    pc s2 = AtTop.
Proof.
  cbv zeta. do 2 eexists.
  split; [vm_compute; reflexivity |].
  split; [reflexivity |].
  split; [reflexivity |].
  split; [vm_compute; reflexivity |].
  repeat split.
Qed.

(** C10, amended.  Once the context is cancelled it stays cancelled, and
    along every trace from then on the goroutine takes at most two more
    transitions, of which at most one is a reception -- none at all when
    the cancellation finds the loop at the top of an iteration.  The check
    at the top of an iteration never lets a cancelled loop through
    ([default] cannot be taken), and wherever a cancelled loop stands, at
    the top or at the blocking [select], the case that returns can be
    taken; returning leaves the counter alone and signals the group. *)
Theorem cancelled_loop_exits (s s' : Loop) (tr : list Label) :
  cancelled s = true ->
  exec_trace s tr = Some s' ->
  cancelled s' = true /\
  (count_labels loop_label tr <= 2)%nat /\
  (count_labels receive_label tr <= 1)%nat /\
  (pc s = AtTop -> count_labels receive_label tr = 0%nat) /\
  (pc s' = AtTop ->
   forall l s'', loop_label l = true -> exec s' l = Some s'' ->
                 pc s'' = Exited) /\
  exec s' (top_default s') = None /\
  (pc s' = AtTop ->
   exists s'', exec s' (top_done s') = Some s'' /\ pc s'' = Exited /\
               encoder s'' = encoder s' /\ workers s'' = workers s' - 1) /\
  (pc s' = AtRecv ->
   exists s'', exec s' (recv_done s') = Some s'' /\ pc s'' = Exited /\
               encoder s'' = encoder s' /\ workers s'' = workers s' - 1).
Proof.
  intros Hc He.
  destruct (cancelled_trace tr _ _ He Hc) as (Hc' & Hs & Hr).
  destruct (steps_left_bound (pc s)) as [B1 B2].
  destruct (cancelled_can_exit s' Hc') as (D & T & R).
  repeat split; try assumption; try lia.
  - intros P. rewrite P in Hr. simpl in Hr. lia.
  - intros P l s'' Hl Hx. now apply (cancelled_top_step s' s'' l).
Qed.

Lemma cancelled_loop_exits_witness :
  (count_labels receive_label
     [HallLabel (Hall.SendA true); HallLabel Hall.TopDone] <= 1)%nat.
Proof.
  exact (proj1 (proj2 (proj2
           (cancelled_loop_exits
              (Start (HallOf (Hall.NewHallEncoder (mkDigitalInterrupt [])
                                                  (mkDigitalInterrupt [])))
                     (mkContext true) 0 false)
              (HallLoop
                 (Hall.mkSys
                    (Hall.mkHallEncoder
                       (AddCallback (mkDigitalInterrupt []) "chanA"%string)
                       (AddCallback (mkDigitalInterrupt []) "chanB"%string)
                       0)
                    Hall.init_locals Exited true [true] [] 0))
              [HallLabel (Hall.SendA true); HallLabel Hall.TopDone]
              eq_refl eq_refl)))).
Defined.

End Interface.


(** ** The quadrature loop on real signals *)

Module HallSignalFacts.

Import Hall HallSignal.







(** Any number of edges, for a direction whose single edge moves the counter
    by [d]. *)
Section Edges.

Variable edge : bool -> bool -> Recv.
Variable d : Z.

Hypothesis one_edge : forall l e,
  consistent l = true ->
  let r := edge (aLevel l) (bLevel l) in
  let st := iteration r (l, e) in
  snd st = set_position e (AddInt64 (position e) d) /\
  (aLevel (fst st), bLevel (fst st)) = levels_after r (aLevel l) (bLevel l) /\
  consistent (fst st) = true.


End Edges.



(** *** Bounces and glitches *)

(** A line that bounces does not accumulate counts: when an edge is accepted
    and the same channel then reports the other level, the second edge is
    accepted too and undoes the first; the counter is back at its value and
    the cached level of the other line was never touched. *)
Theorem bounce_cancels (r : Recv) (l : Locals) (e : HallEncoder) :
  accepted r l = true ->
  let st := run [r; opposite r] (l, e) in
  accepted (opposite r) (fst (iteration r (l, e))) = true /\
  delta64 (position e) (position (snd st)) = 0 /\
  (Int64.in_range (position e) -> position (snd st) = position e) /\
  cached (opposite r) (fst st) = negb (level_of r) /\
  (if isA_of r then bLevel (fst st) = bLevel l
   else aLevel (fst st) = aLevel l).
Proof.
  intros Ha.
  assert (Hp : position (snd (run [r; opposite r] (l, e)))
               = AddInt64 (position e) 0).
  { destruct l as [[] [] [] []], r as [[] | []]; try discriminate Ha;
      cbv [run fold_left opposite iteration record duplicate count isA_of
           level_of aLevel bLevel lastWasA lastLevel Bool.eqb negb andb
           inc dec set_position position fst snd a b];
      rewrite AddInt64_AddInt64; reflexivity. }
  cbv zeta. rewrite Hp. repeat split.
  - destruct l as [[] [] [] []], r as [[] | []]; try discriminate Ha;
      reflexivity.
  - rewrite delta64_AddInt64. reflexivity.
  - apply AddInt64_0.
  - destruct l as [[] [] [] []], r as [[] | []]; try discriminate Ha;
      reflexivity.
  - destruct l as [[] [] [] []], r as [[] | []]; try discriminate Ha;
      reflexivity.
Qed.

Lemma bounce_cancels_witness :
  delta64 0
    (position
       (snd (run [FromB false; opposite (FromB false)]
               (init_locals,
                NewHallEncoder (mkDigitalInterrupt [])
                               (mkDigitalInterrupt [])))))
  = 0.
Proof.
  exact (proj1 (proj2 (bounce_cancels (FromB false) init_locals
                         (NewHallEncoder (mkDigitalInterrupt [])
                                         (mkDigitalInterrupt []))
                         eq_refl))).
Defined.

(** The duplicate test only remembers the last accepted event.  An event
    from the other channel is always accepted, also when it reports the
    level that channel already has: the cached levels stay as they are and
    the counter still moves by one. *)
Theorem repeat_on_other_channel_counts
    (r : Recv) (l : Locals) (e : HallEncoder) :
  isA_of r <> lastWasA l ->
  level_of r = cached r l ->
  let st := iteration r (l, e) in
  accepted r l = true /\
  aLevel (fst st) = aLevel l /\ bLevel (fst st) = bLevel l /\
  (delta64 (position e) (position (snd st)) = 1 \/
   delta64 (position e) (position (snd st)) = -1) /\
  position (snd st) <> position e.
Proof.
  intros Hch Hlv.
  assert (Ha : accepted r l = true).
  { unfold accepted, duplicate.
    destruct (isA_of r), (lastWasA l); try reflexivity; now elim Hch. }
  cbv zeta. rewrite (HallFacts.iteration_accepted _ _ _ Ha). cbv zeta.
  cbn [fst snd aLevel bLevel]. rewrite HallFacts.count_table.
  cbn [set_position position].
  unfold cached in Hlv. repeat split.
  - exact Ha.
  - destruct r, l; simpl in *; congruence.
  - destruct r, l; simpl in *; congruence.
  - apply HallFacts.apply_action_delta.
  - apply HallFacts.apply_action_moves.
Qed.

Lemma repeat_on_other_channel_counts_witness :
  delta64 0
    (position
       (snd (iteration (FromB true)
               (init_locals,
                NewHallEncoder (mkDigitalInterrupt [])
                               (mkDigitalInterrupt [])))))
  = 1 \/
  delta64 0
    (position
       (snd (iteration (FromB true)
               (init_locals,
                NewHallEncoder (mkDigitalInterrupt [])
                               (mkDigitalInterrupt [])))))
  = -1.
Proof.
  exact (proj1 (proj2 (proj2 (proj2
           (repeat_on_other_channel_counts (FromB true) init_locals
              (NewHallEncoder (mkDigitalInterrupt []) (mkDigitalInterrupt []))
              (fun H => Bool.diff_false_true H) eq_refl))))).
Defined.

(** *** Counting over any sequence of events *)

Lemma delta64_chain (p q r : Z) :
  delta64 p r = Int64.wrap (delta64 p q + delta64 q r).
Proof.
  unfold delta64, Int64.sub.
  rewrite wrap_add_l, Z.add_comm, wrap_add_l. f_equal. lia.
Qed.

(** What one iteration does to the counter does not depend on the counter:
    the locals decide between one up, one down and nothing. *)
Lemma iteration_effect (r : Recv) (l : Locals) :
  exists (l' : Locals) (x : Z),
    ((accepted r l = true /\ (x = 1 \/ x = -1)) \/
     (accepted r l = false /\ x = 0)) /\
    forall e, fst (iteration r (l, e)) = l' /\
              delta64 (position e) (position (snd (iteration r (l, e))))
              = Int64.wrap x.
Proof.
  destruct (accepted r l) eqn:Ha.
  - pose (l2 := mkLocals (aLevel (record r l)) (bLevel (record r l))
                         (isA_of r) (level_of r)).
    destruct (table (aLevel l2) (bLevel l2) (lastWasA l2)) eqn:Et.
    + exists l2, 1. split; [left; auto |]. intros e.
      rewrite (HallFacts.iteration_accepted _ _ _ Ha). cbv zeta. fold l2.
      cbn [fst snd]. rewrite HallFacts.count_table, Et. split; [reflexivity |].
      simpl. apply delta64_AddInt64.
    + exists l2, (-1). split; [left; auto |]. intros e.
      rewrite (HallFacts.iteration_accepted _ _ _ Ha). cbv zeta. fold l2.
      cbn [fst snd]. rewrite HallFacts.count_table, Et. split; [reflexivity |].
      simpl. apply delta64_AddInt64.
  - exists (record r l), 0. split; [right; auto |]. intros e.
    unfold accepted in Ha. apply negb_false_iff in Ha.
    rewrite (HallFacts.iteration_duplicate _ _ _ Ha). split; [reflexivity |].
    apply delta64_same.
Qed.

(** Over any sequence of events, accepted or not, real edges or glitches:
    the counter ends at its start plus the increments minus the decrements,
    on [int64], and the two together are exactly the accepted events.  So
    [Position] never moves by more than the number of accepted events, and
    it moves by an odd amount exactly when that number is odd. *)
Theorem counter_is_ups_minus_downs
    (rs : list Recv) (st : Locals * HallEncoder) :
  exists up down : nat,
    (up + down)%nat = accepted_count rs st /\
    (accepted_count rs st <= List.length rs)%nat /\
    delta64 (position (snd st)) (position (snd (run rs st)))
    = Int64.wrap (Z.of_nat up - Z.of_nat down).
Proof.
  revert st. induction rs as [| r rs IH]; intros [l e].
  - exists 0%nat, 0%nat. simpl. rewrite delta64_same. repeat split; lia.
  - change (run (r :: rs) (l, e)) with (run rs (iteration r (l, e))).
    destruct (IH (iteration r (l, e))) as (up & down & Hn & Hlen & Hd).
    destruct (iteration_effect r l) as (l' & x & Hx & Hit).
    destruct (Hit e) as [_ Hstep].
    cbn [accepted_count fst snd List.length].
    destruct Hx as [[Ha [-> | ->]] | [Ha ->]]; rewrite Ha.
    + exists (S up), down. repeat split; try lia.
      rewrite (delta64_trans _ _ _ _ _ Hstep Hd). f_equal. lia.
    + exists up, (S down). repeat split; try lia.
      rewrite (delta64_trans _ _ _ _ _ Hstep Hd). f_equal. lia.
    + exists up, down. repeat split; try lia.
      rewrite (delta64_trans _ _ _ _ _ Hstep Hd). f_equal.
Qed.

(** The counter does not feed back into the decoding.  Started from the same
    locals with two different counters, the loop ends with the same locals
    and has moved both counters by the same amount. *)
Lemma run_shift (rs : list Recv) :
  forall l e1 e2,
    fst (run rs (l, e1)) = fst (run rs (l, e2)) /\
    delta64 (position e1) (position (snd (run rs (l, e1))))
    = delta64 (position e2) (position (snd (run rs (l, e2)))).
Proof.
  induction rs as [| r rs IH]; intros l e1 e2.
  - simpl. now rewrite !delta64_same.
  - change (run (r :: rs) (l, e1)) with (run rs (iteration r (l, e1))).
    change (run (r :: rs) (l, e2)) with (run rs (iteration r (l, e2))).
    destruct (iteration_effect r l) as (l' & x & _ & Hit).
    destruct (Hit e1) as [L1 D1], (Hit e2) as [L2 D2].
    destruct (iteration r (l, e1)) as [l1 f1], (iteration r (l, e2)) as [l2 f2].
    simpl in L1, L2, D1, D2. subst l1 l2.
    destruct (IH l' f1 f2) as [IHl IHd]. split; [exact IHl |].
    rewrite (delta64_chain (position e1) (position f1)).
    rewrite (delta64_chain (position e2) (position f2)).
    now rewrite D1, D2, IHd.
Qed.

(** [Zero] overwrites the counter and nothing else.  Whatever events follow,
    the loop accepts and drops the same ones and counts them in the same
    directions as it would have without the call: [Position] ends at [X]
    plus the movement it would have made. *)
Theorem zero_keeps_decoding
    (rs : list Recv) (l : Locals) (e : HallEncoder) (ctx : Context) (X : Z) :
  fst (run rs (l, fst (Zero e ctx X))) = fst (run rs (l, e)) /\
  delta64 X (position (snd (run rs (l, fst (Zero e ctx X)))))
  = delta64 (position e) (position (snd (run rs (l, e)))).
Proof.
  destruct (run_shift rs l (fst (Zero e ctx X)) e) as [Hl Hd].
  split; [exact Hl | exact Hd].
Qed.

(** *** From the iteration to the goroutine *)

Lemma exec_trace_app (tr1 tr2 : list Label) :
  forall s,
    exec_trace s (tr1 ++ tr2)
    = match exec_trace s tr1 with
      | Some s1 => exec_trace s1 tr2
      | None => None
      end.
Proof.
  induction tr1 as [| l tr1 IH]; intros s; simpl; [reflexivity |].
  destruct (exec s l); [apply IH | reflexivity].
Qed.

Lemma deliver_one_exec (r : Recv) (s : Sys) :
  pc s = AtTop -> cancelled s = false -> chanA s = [] -> chanB s = [] ->
  exec_trace s (deliver_one r)
  = Some (mkSys (snd (iteration r (loc s, enc s)))
                (fst (iteration r (loc s, enc s)))
                AtTop false [] [] (workers s)).
Proof.
  destruct s as [e l p c qa qb w]. cbn [pc cancelled chanA chanB loc enc workers].
  intros -> -> -> ->.
  destruct r as [level | level]; unfold deliver_one, exec_trace, exec;
    cbn [pc cancelled chanA chanB loc enc workers app set_pc];
    destruct (iteration _ (l, e)); reflexivity.
Qed.

(** A loop that is not cancelled and finds each edge waiting when it comes
    to its blocking [select] processes the edges in the order they were
    sent: the goroutine ends in the state that the iterations, run one after
    the other, compute; it is back at the top of the loop with nobody left
    blocked. *)
Theorem delivered_edges_are_run (rs : list Recv) :
  forall s,
    pc s = AtTop -> cancelled s = false -> chanA s = [] -> chanB s = [] ->
    exists s',
      exec_trace s (deliver rs) = Some s' /\
      (loc s', enc s') = run rs (loc s, enc s) /\
      pc s' = AtTop /\ cancelled s' = false /\
      chanA s' = [] /\ chanB s' = [] /\ workers s' = workers s.
Proof.
  induction rs as [| r rs IH]; intros s Hp Hc Ha Hb.
  - exists s. simpl. repeat split; assumption.
  - change (deliver (r :: rs)) with (deliver_one r ++ deliver rs).
    rewrite exec_trace_app, (deliver_one_exec r s Hp Hc Ha Hb).
    destruct (IH (mkSys (snd (iteration r (loc s, enc s)))
                        (fst (iteration r (loc s, enc s)))
                        AtTop false [] [] (workers s)))
      as (s' & He & Hrun & Hrest); try reflexivity.
    exists s'. split; [exact He |]. split; [| exact Hrest].
    rewrite Hrun. cbn [loc enc].
    change (run (r :: rs) (loc s, enc s))
      with (run rs (iteration r (loc s, enc s))).
    now destruct (iteration r (loc s, enc s)).
Qed.

Lemma delivered_edges_are_run_witness :
  exists s',
    exec_trace
      (Start (NewHallEncoder (mkDigitalInterrupt []) (mkDigitalInterrupt []))
             (mkContext false) 0)
      (deliver [FromA false; FromB false]) = Some s' /\
    position (enc s') = -2.
Proof.
  destruct (delivered_edges_are_run [FromA false; FromB false]
              (Start (NewHallEncoder (mkDigitalInterrupt [])
                                     (mkDigitalInterrupt []))
                     (mkContext false) 0)
              eq_refl eq_refl eq_refl eq_refl)
    as (s' & He & Hrun & _).
  exists s'. split; [exact He |].
  exact (f_equal (fun st => position (snd st)) Hrun).
Defined.

(** *** Both lines change before the loop looks *)





(** *** Bursts *)

(** Receiving the same event again changes nothing at all: an iteration
    repeated on the same event leaves the locals and the counter exactly as
    the first one left them, so a burst of identical reports counts as one
    report. *)
Theorem burst_counts_once (r : Recv) (k : nat) (st : Locals * HallEncoder) :
  run (repeat r (S k)) st = run [r] st.
Proof.
  assert (Idem : forall st0, iteration r (iteration r st0) = iteration r st0).
  { intros [l e].
    destruct l as [[] [] [] []], r as [[] | []]; reflexivity. }
  revert st. induction k as [| k IH]; intros st; [reflexivity |].
  change (run (repeat r (S (S k))) st)
    with (run (repeat r (S k)) (iteration r st)).
  rewrite IH. change (run [r] (iteration r st))
    with (iteration r (iteration r st)).
  apply Idem.
Qed.

End HallSignalFacts.

(** ** Pulses under a changing direction *)

Module SinglePulsesFacts.

Import Single SinglePulses.

(** Over any sequence of pulses, each received under whatever direction the
    motor then reads: the loop does not panic while the motor is set, the
    counter ends at its start plus the forward pulses minus the backward
    ones, on [int64], and the motor's logger has gained one warning per pulse
    received while off when the debug flag is set, and nothing otherwise. *)
Theorem pulses_add_up (rpmDebug : bool) (ds : list DirectionRelative) :
  forall (e : SingleEncoder) (m : EncodedMotor),
    M e = Some m ->
    exists e' m',
      pulses rpmDebug ds e = Some e' /\ M e' = Some m' /\
      delta64 (position e) (position e') = Int64.wrap (net ds) /\
      logger m'
      = logger m
        ++ repeat (Warn "got encoder tick but motor should be off"%string)
             (if rpmDebug then List.length (filter is_off ds) else 0%nat).
Proof.
  induction ds as [| d ds IH]; intros e m Hm.
  - exists e, m. simpl. rewrite delta64_same.
    repeat split; try assumption.
    destruct rpmDebug; simpl; now rewrite app_nil_r.
  - assert (Hm1 : M (with_direction d e)
                  = Some (mkEncodedMotor d (logger m))).
    { unfold with_direction. simpl. now rewrite Hm. }
    cbn [pulses]. rewrite (SingleFacts.iteration_some _ _ _ Hm1).
    cbn [rawDirection direction with_direction i position].
    destruct d.
    + destruct (IH (mkSingleEncoder (i e) (position e)
                      (Some (if rpmDebug
                             then logger_Warn
                                    (mkEncodedMotor
                                       DIRECTION_RELATIVE_UNSPECIFIED (logger m))
                                    "got encoder tick but motor should be off"%string
                             else mkEncodedMotor
                                    DIRECTION_RELATIVE_UNSPECIFIED (logger m))))
                   _ eq_refl) as (e' & m' & Hp & Hm' & Hd & Hl).
      exists e', m'. split; [exact Hp |]. split; [exact Hm' |].
      simpl in Hd. split; [exact Hd |].
      rewrite Hl. destruct rpmDebug; simpl; [| reflexivity].
      now rewrite <- app_assoc.
    + destruct (IH (mkSingleEncoder (i e) (AddInt64 (position e) 1)
                      (Some (mkEncodedMotor DIRECTION_RELATIVE_FORWARD
                               (logger m))))
                   _ eq_refl) as (e' & m' & Hp & Hm' & Hd & Hl).
      exists e', m'. split; [exact Hp |]. split; [exact Hm' |].
      simpl in Hd, Hl. split.
      * change (net (DIRECTION_RELATIVE_FORWARD :: ds)) with (1 + net ds).
        eapply delta64_trans; [apply delta64_AddInt64 | exact Hd].
      * rewrite Hl. now destruct rpmDebug.
    + destruct (IH (mkSingleEncoder (i e) (AddInt64 (position e) (-1))
                      (Some (mkEncodedMotor DIRECTION_RELATIVE_BACKWARD
                               (logger m))))
                   _ eq_refl) as (e' & m' & Hp & Hm' & Hd & Hl).
      exists e', m'. split; [exact Hp |]. split; [exact Hm' |].
      simpl in Hd, Hl. split.
      * change (net (DIRECTION_RELATIVE_BACKWARD :: ds)) with (-1 + net ds).
        eapply delta64_trans; [apply delta64_AddInt64 | exact Hd].
      * rewrite Hl. now destruct rpmDebug.
Qed.

Lemma pulses_add_up_witness :
  exists e' m',
    pulses true
      [DIRECTION_RELATIVE_FORWARD; DIRECTION_RELATIVE_UNSPECIFIED;
       DIRECTION_RELATIVE_FORWARD; DIRECTION_RELATIVE_BACKWARD]
      (mkSingleEncoder (mkDigitalInterrupt []) 0
         (Some (mkEncodedMotor DIRECTION_RELATIVE_UNSPECIFIED []))) = Some e' /\
    M e' = Some m' /\
    delta64 0 (position e') = 1 /\
    logger m' = [Warn "got encoder tick but motor should be off"%string].
Proof.
  exact (pulses_add_up true
           [DIRECTION_RELATIVE_FORWARD; DIRECTION_RELATIVE_UNSPECIFIED;
            DIRECTION_RELATIVE_FORWARD; DIRECTION_RELATIVE_BACKWARD]
           (mkSingleEncoder (mkDigitalInterrupt []) 0
              (Some (mkEncodedMotor DIRECTION_RELATIVE_UNSPECIFIED [])))
           (mkEncodedMotor DIRECTION_RELATIVE_UNSPECIFIED []) eq_refl).
Defined.

End SinglePulsesFacts.

(** ** Life of the goroutine *)

Section Lifecycle.

Variable wg : Z.





End Lifecycle.


Section AfterReturn.

Lemma returned_step (s s' : Loop) (l : Label) :
  exec s l = Some s' -> pc s = Exited ->
  pc s' = Exited /\ loop_label l = false /\
  blocked s' = (blocked s + (if send_label l then 1 else 0))%nat /\
  workers s' = workers s /\
  (is_zero l = false ->
   forall ctx, Position (encoder s') ctx = Position (encoder s) ctx).
Proof.
  destruct s as [h | g], l as [l | l]; simpl; try discriminate.
  - destruct (Hall.exec h l) as [h1 |] eqn:E; [| discriminate].
    intros H P. injection H as <-.
    destruct l; unfold Hall.exec in E; rewrite ?P in E;
      try discriminate E; injection E as <-; simpl;
      rewrite ?length_app; simpl;
      (split; [reflexivity || exact P |]); (split; [reflexivity |]);
      (split; [lia |]); (split; [reflexivity |]);
      intros Hz; try discriminate Hz; reflexivity.
  - destruct (Single.exec g l) as [g1 |] eqn:E; [| discriminate].
    intros H P. injection H as <-.
    destruct l; unfold Single.exec in E; rewrite ?P in E;
      try discriminate E; injection E as <-; simpl;
      rewrite ?length_app; simpl;
      (split; [reflexivity || exact P |]); (split; [reflexivity |]);
      (split; [lia |]); (split; [reflexivity |]);
      intros Hz; try discriminate Hz; reflexivity.
Qed.

(** Once the goroutine has returned nothing reads the channels any more.
    Along every trace from then on no transition of the goroutine happens,
    every sender that arrives stays blocked (the channels are unbuffered),
    the worker group is not signalled a second time, and [Position] changes
    only through [Zero]. *)
Theorem returned_loop_receives_nothing (s s' : Loop) (tr : list Label) :
  pc s = Exited ->
  exec_trace s tr = Some s' ->
  pc s' = Exited /\
  count_labels loop_label tr = 0%nat /\
  blocked s' = (blocked s + count_labels send_label tr)%nat /\
  workers s' = workers s /\
  (count_labels is_zero tr = 0%nat ->
   forall ctx, Position (encoder s') ctx = Position (encoder s) ctx).
Proof.
  revert s. induction tr as [| l tr IH]; intros s P He.
  - injection He as <-. unfold count_labels. simpl.
    repeat split; try assumption; lia.
  - simpl in He. destruct (exec s l) as [s1 |] eqn:E1; [| discriminate].
    destruct (returned_step _ _ _ E1 P) as (P1 & Hl & Hb & Hw & Hz).
    destruct (IH s1 P1 He) as (P' & Hl' & Hb' & Hw' & Hz').
    rewrite !count_labels_cons, Hl.
    split; [exact P' |]. split; [exact Hl' |].
    split; [lia |]. split; [congruence |].
    intros H0 ctx. destruct (is_zero l) eqn:Z; [discriminate H0 |].
    rewrite (Hz' H0 ctx). now apply Hz.
Qed.

Lemma returned_loop_receives_nothing_witness :
  blocked
    (HallLoop (Hall.mkSys (Hall.NewHallEncoder (mkDigitalInterrupt [])
                                               (mkDigitalInterrupt []))
                          Hall.init_locals Exited true [true] [false] 0))
  = (blocked
       (HallLoop (Hall.mkSys (Hall.NewHallEncoder (mkDigitalInterrupt [])
                                                  (mkDigitalInterrupt []))
                             Hall.init_locals Exited true [] [] 0))
     + count_labels send_label
         [HallLabel (Hall.SendA true); HallLabel (Hall.SendB false)])%nat.
Proof.
  exact (proj1 (proj2 (proj2
           (returned_loop_receives_nothing
              (HallLoop (Hall.mkSys
                           (Hall.NewHallEncoder (mkDigitalInterrupt [])
                                                (mkDigitalInterrupt []))
                           Hall.init_locals Exited true [] [] 0))
              (HallLoop (Hall.mkSys
                           (Hall.NewHallEncoder (mkDigitalInterrupt [])
                                                (mkDigitalInterrupt []))
                           Hall.init_locals Exited true [true] [false] 0))
              [HallLabel (Hall.SendA true); HallLabel (Hall.SendB false)]
              eq_refl eq_refl)))).
Defined.

End AfterReturn.

Section Waiting.


End Waiting.

Section StartedLoop.



End StartedLoop.
